(** * chatbot_db.py: session history, reply clean-up and the connection handler

    A shallow embedding of [src/chatbot/chatbot_db.py].

    - Python [str] values are [string]s; a character stands for the code
      point of the same number, so the texts covered are those whose code
      points are below 256.  The character classes of Python ([str.isspace],
      the regular expression classes [\w] and [.]) are written out for that
      range.
    - [chat_histories], a dict from session id to a list of strings, is a
      [gmap string (list string)].
    - The four regular expressions of [generate_response] are values of a
      small syntax [regex], run by a backtracking matcher that tries the
      alternatives in the order Python's [re] does. *)

From Stdlib Require Import Ascii String.
From stdpp Require Import gmap strings list.

Local Open Scope nat_scope.

(** ** Characters *)

Module Char.

Definition code (c : ascii) : nat := nat_of_ascii c.

Definition between (lo hi : nat) (c : ascii) : bool :=
  (lo <=? code c) && (code c <=? hi).

(** [str.isspace] on the code points below 256: the characters that
    [str.strip()] removes. *)
Definition is_space (c : ascii) : bool :=
  between 9 13 c || between 28 32 c || (code c =? 133) || (code c =? 160).

Definition is_upper (c : ascii) : bool := between 65 90 c.
Definition is_lower (c : ascii) : bool := between 97 122 c.

(** The class [\w] of a [str] pattern on the code points below 256:
    letters, digits and other numeric characters, and the underscore. *)
Definition is_word (c : ascii) : bool :=
  between 48 57 c || is_upper c || is_lower c || (code c =? 95)
  || (code c =? 170) || between 178 179 c || (code c =? 181)
  || between 185 186 c || between 188 190 c
  || between 192 214 c || between 216 246 c || between 248 255 c.

(** Lower case of an ASCII letter; other characters are unchanged. *)
Definition lower (c : ascii) : ascii :=
  if is_upper c then ascii_of_nat (code c + 32) else c.

Definition eqb (a b : ascii) : bool := Ascii.eqb a b.

(** Equality under the flag [(?i)], for a pattern character that is an
    ASCII letter, digit, space or punctuation mark. *)
Definition eqb_icase (a b : ascii) : bool := Ascii.eqb (lower a) (lower b).

Definition newline : ascii := "010"%char.

End Char.

(** ** Strings: the [str] methods used by the program *)

Module Str.

Fixpoint length (s : string) : nat :=
  match s with
  | "" => 0
  | String _ s' => S (length s')
  end.

(** The last character of [s], or [d] when [s] is empty. *)
Fixpoint last_char (s : string) (d : option ascii) : option ascii :=
  match s with
  | "" => d
  | String c s' => last_char s' (Some c)
  end.

Definition first_char (s : string) : option ascii :=
  match s with
  | "" => None
  | String c _ => Some c
  end.

Fixpoint lstrip (s : string) : string :=
  match s with
  | "" => ""
  | String c s' => if Char.is_space c then lstrip s' else s
  end.

(** [rstrip]: a whitespace character is dropped when everything after it
    has been dropped. *)
Fixpoint rstrip (s : string) : string :=
  match s with
  | "" => ""
  | String c s' =>
      match rstrip s' with
      | "" => if Char.is_space c then "" else String c ""
      | t => String c t
      end
  end.

(** [s.strip()] *)
Definition strip (s : string) : string := rstrip (lstrip s).

Definition cons_head (c : ascii) (l : list string) : list string :=
  match l with
  | [] => [String c ""]
  | p :: ps => String c p :: ps
  end.

(** [s.split(sep)] for a non-empty [sep]: the pieces between the
    occurrences of [sep], found from the left without overlap.  [skip]
    counts the characters of an occurrence still to be passed over. *)
Fixpoint split_go (sep : string) (skip : nat) (s : string) : list string :=
  match s with
  | "" => [""]
  | String c s' =>
      match skip with
      | S n => split_go sep n s'
      | 0 =>
          if String.prefix sep s
          then "" :: split_go sep (length sep - 1) s'
          else cons_head c (split_go sep 0 s')
      end
  end.

Definition split (sep s : string) : list string := split_go sep 0 s.

(** [sep.join(l)] *)
Fixpoint join (sep : string) (l : list string) : string :=
  match l with
  | [] => ""
  | [x] => x
  | x :: l' => x +:+ sep +:+ join sep l'
  end.

(** [s.replace(a, b)] for single characters [a] and [b]. *)
Fixpoint replace_char (a b : ascii) (s : string) : string :=
  match s with
  | "" => ""
  | String c s' =>
      String (if Ascii.eqb c a then b else c) (replace_char a b s')
  end.

(** [s.endswith(tuple_of_characters)] *)
Definition endswith_any (cs : list ascii) (s : string) : bool :=
  match last_char s None with
  | None => false
  | Some c => existsb (Ascii.eqb c) cs
  end.

End Str.

(** ** Regular expressions *)

Module Re.

(** A set of characters that one pattern position accepts. *)
Inductive cclass : Type :=
| Dot                        (* [.]: any character but a newline *)
| OneOf (cs : list ascii).   (* [[...]] *)

Definition accepts (cl : cclass) (c : ascii) : bool :=
  match cl with
  | Dot => negb (Ascii.eqb c Char.newline)
  | OneOf cs => existsb (Ascii.eqb c) cs
  end.

(** The constructs that occur in the patterns of the program. *)
Inductive regex : Type :=
| Lit (icase : bool) (s : string)   (* a literal text; [icase]: under [(?i)] *)
| Seq (r1 r2 : regex)
| Alt (r1 r2 : regex)               (* [r1|r2], [r1] tried first *)
| Star (cl : cclass)                (* [c*], greedy *)
| StarLazy (cl : cclass)            (* [c*?] *)
| Plus (cl : cclass)                (* [c+], greedy *)
| WordB                             (* [\b] *)
| LookBehind (cl : cclass).         (* [(?<=c)] *)

Definition is_word_opt (c : option ascii) : bool :=
  match c with
  | None => false
  | Some c => Char.is_word c
  end.

(** [\b] holds between [prev] and the head of [s] when exactly one of the
    two is a word character; the ends of the text count as non-word. *)
Definition at_word_boundary (prev : option ascii) (s : string) : bool :=
  xorb (is_word_opt prev) (is_word_opt (Str.first_char s)).

(** What is left to match: given the character before the position and
    the text from the position on, the text left after the whole match. *)
Definition cont : Type := option ascii → string → option string.

Fixpoint lit_match (icase : bool) (l : string) (prev : option ascii)
    (s : string) (k : cont) : option string :=
  match l with
  | "" => k prev s
  | String a l' =>
      match s with
      | "" => None
      | String c s' =>
          if (if icase then Char.eqb_icase a c else Char.eqb a c)
          then lit_match icase l' (Some c) s' k
          else None
      end
  end.

(** Greedy repetition: take a character when the class accepts it and
    the rest then matches; otherwise stop here. *)
Fixpoint star_greedy (cl : cclass) (prev : option ascii) (s : string)
    (k : cont) : option string :=
  match s with
  | "" => k prev s
  | String c s' =>
      if accepts cl c then
        match star_greedy cl (Some c) s' k with
        | Some r => Some r
        | None => k prev s
        end
      else k prev s
  end.

(** Lazy repetition: stop here when the rest matches; otherwise take one
    more character. *)
Fixpoint star_lazy (cl : cclass) (prev : option ascii) (s : string)
    (k : cont) : option string :=
  match k prev s with
  | Some r => Some r
  | None =>
      match s with
      | "" => None
      | String c s' =>
          if accepts cl c then star_lazy cl (Some c) s' k else None
      end
  end.

(** The backtracking matcher, anchored at the position [(prev, s)]. *)
Fixpoint rmatch (r : regex) (prev : option ascii) (s : string) (k : cont)
    : option string :=
  match r with
  | Lit icase l => lit_match icase l prev s k
  | Seq r1 r2 => rmatch r1 prev s (λ p t, rmatch r2 p t k)
  | Alt r1 r2 =>
      match rmatch r1 prev s k with
      | Some t => Some t
      | None => rmatch r2 prev s k
      end
  | Star cl => star_greedy cl prev s k
  | StarLazy cl => star_lazy cl prev s k
  | Plus cl =>
      match s with
      | "" => None
      | String c s' =>
          if accepts cl c then star_greedy cl (Some c) s' k else None
      end
  | WordB => if at_word_boundary prev s then k prev s else None
  | LookBehind cl =>
      match prev with
      | Some p => if accepts cl p then k prev s else None
      | None => None
      end
  end.

(** The text after the match of [r] that starts at [(prev, s)]. *)
Definition match_at (r : regex) (prev : option ascii) (s : string)
    : option string :=
  rmatch r prev s (λ _ t, Some t).

(** The number of characters of that match. *)
Definition match_len (r : regex) (prev : option ascii) (s : string)
    : option nat :=
  match match_at r prev s with
  | Some t => Some (Str.length s - Str.length t)
  | None => None
  end.

(** [re.sub(r, repl, s)]: every match, found from the left without
    overlap, is replaced by [repl].  [skip] counts the characters of the
    current match still to be passed over.  An empty match would put
    [repl] before the next character; no pattern of the program can
    match the empty text. *)
Fixpoint sub_go (r : regex) (repl : string) (skip : nat)
    (prev : option ascii) (s : string) {struct s} : string :=
  match skip with
  | S n =>
      match s with
      | "" => ""
      | String c s' => sub_go r repl n (Some c) s'
      end
  | 0 =>
      match match_len r prev s with
      | Some (S n) =>
          repl +:+
          match s with
          | "" => ""
          | String c s' => sub_go r repl n (Some c) s'
          end
      | Some 0 =>
          repl +:+
          match s with
          | "" => ""
          | String c s' => String c (sub_go r repl 0 (Some c) s')
          end
      | None =>
          match s with
          | "" => ""
          | String c s' => String c (sub_go r repl 0 (Some c) s')
          end
      end
  end.

Definition sub (r : regex) (repl s : string) : string :=
  sub_go r repl 0 None s.

(** [re.split(r, s)] without the texts of capture groups: the pieces of
    [s] between the matches.  (With a capture group Python puts the
    captured text between two pieces; piece 0 is the same.) *)
Fixpoint split_go (r : regex) (skip : nat) (prev : option ascii)
    (s : string) {struct s} : list string :=
  match skip with
  | S n =>
      match s with
      | "" => [""]
      | String c s' => split_go r n (Some c) s'
      end
  | 0 =>
      match s with
      | "" => [""]
      | String c s' =>
          match match_len r prev s with
          | Some (S n) => "" :: split_go r n (Some c) s'
          | _ => Str.cons_head c (split_go r 0 (Some c) s')
          end
      end
  end.

Definition split (r : regex) (s : string) : list string :=
  split_go r 0 None s.

(** The least number of characters that a match of [r] takes. *)
Fixpoint min_len (r : regex) : nat :=
  match r with
  | Lit _ l => Str.length l
  | Seq r1 r2 => min_len r1 + min_len r2
  | Alt r1 r2 => Nat.min (min_len r1) (min_len r2)
  | Plus _ => 1
  | Star _ | StarLazy _ | WordB | LookBehind _ => 0
  end.

(** The continuation [k] is reached, with result [t], on a text that is
    shorter than [s] by [n] characters at least. *)
Definition reaches (k : cont) (t : string) (n : nat) (s : string) : Prop :=
  ∃ p' u, k p' u = Some t ∧ Str.length u + n ≤ Str.length s.

End Re.

(** ** The reply clean-up of [generate_response] (lines 108-133) *)

(** [r"<.*?>"] *)
Definition tag_re : Re.regex :=
  Re.Seq (Re.Lit false "<") (Re.Seq (Re.StarLazy Re.Dot) (Re.Lit false ">")).

(** [r"\b(User:|Assistant:)\b"] *)
Definition turn_marker_re : Re.regex :=
  Re.Seq Re.WordB
    (Re.Seq (Re.Alt (Re.Lit false "User:") (Re.Lit false "Assistant:"))
       Re.WordB).

(** The discourse markers, in the order of the pattern. *)
Definition thinking_markers : list string :=
  [ "Hmm"; "Wait"; "Let me think"; "I think"; "Maybe"; "Possibly";
    "Alternatively"; "Should I"; "Now I need to"; "So"; "Alright"; "Anyway" ].

(** [m1|m2|...|mn] under [(?i)] *)
Fixpoint alternatives (ms : list string) : Re.regex :=
  match ms with
  | [] => Re.Lit true ""
  | [m] => Re.Lit true m
  | m :: ms' => Re.Alt (Re.Lit true m) (alternatives ms')
  end.

(** [r'(?i)\b(Hmm|Wait|Let me think|I think|Maybe|Possibly|Alternatively|Should I|Now I need to|So|Alright|Anyway)\b.*'] *)
Definition thinking_re : Re.regex :=
  Re.Seq Re.WordB
    (Re.Seq (alternatives thinking_markers)
       (Re.Seq Re.WordB (Re.Star Re.Dot))).

(** [r'(?<=[.!?]) +'] *)
Definition sentence_end : list ascii := ["."; "!"; "?"]%char.

Definition sentence_gap_re : Re.regex :=
  Re.Seq (Re.LookBehind (Re.OneOf sentence_end)) (Re.Plus (Re.OneOf [" "%char])).

(** Line 108: [decoded.split("Assistant:")[-1].strip()] *)
Definition extract_reply (decoded : string) : string :=
  Str.strip (List.last (Str.split "Assistant:" decoded) "").

(** Line 111: [re.sub(r"<.*?>", "", response)] *)
Definition remove_tags (response : string) : string :=
  Re.sub tag_re "" response.

(** Line 114: [re.split(r"\b(User:|Assistant:)\b", response)[0].strip()] *)
Definition cut_continuation (response : string) : string :=
  Str.strip (List.hd "" (Re.split turn_marker_re response)).

(** Lines 117-121, before the [.strip()] *)
Definition sub_thinking (response : string) : string :=
  Re.sub thinking_re "" response.

Definition remove_thinking (response : string) : string :=
  Str.strip (sub_thinking response).

(** Lines 125-126 *)
Definition first_sentences (response : string) : string :=
  let sentences := Re.split sentence_gap_re response in
  Str.strip (Str.join " " (firstn 3 sentences)).

(** Lines 128-129 *)
Definition close_sentence (response : string) : string :=
  if Str.endswith_any sentence_end response then response
  else response +:+ ".".

(** Line 132: [response.replace('\n', ' ').strip()] *)
Definition final_cleanup (response : string) : string :=
  Str.strip (Str.replace_char Char.newline " "%char response).

(** Steps 1 to 6 of the pipeline: lines 108-126. *)
Definition steps_1_6 (decoded : string) : string :=
  first_sentences
    (remove_thinking (cut_continuation (remove_tags (extract_reply decoded)))).

(** The whole clean-up, from the decoded text of the model to the reply. *)
Definition sanitize (decoded : string) : string :=
  final_cleanup (close_sentence (steps_1_6 decoded)).

(** [generate_response(context)]: the text is produced by the tokenizer
    and the model, with sampling; [model_decode] stands for one run of
    lines 95-105 on the context. *)
Definition generate_response (model_decode : string → string)
    (context : string) : string :=
  sanitize (model_decode context).

(** *** Lines and occurrences of a marker *)

(** [s] has no newline. *)
Fixpoint one_line (s : string) : bool :=
  match s with
  | "" => true
  | String c s' => negb (Ascii.eqb c Char.newline) && one_line s'
  end.

(** The text from the first newline of [s] on; empty when [s] is one line. *)
Fixpoint rest_of_lines (s : string) : string :=
  match s with
  | "" => ""
  | String c s' => if Ascii.eqb c Char.newline then s else rest_of_lines s'
  end.

(** [a] and [b] are the same text up to the case of ASCII letters. *)
Fixpoint same_icase (a b : string) : bool :=
  match a, b with
  | "", "" => true
  | String x a', String y b' => Char.eqb_icase x y && same_icase a' b'
  | _, _ => false
  end.

(** What follows the marker in [thinking_re]: [\b.*] and the end of the
    match. *)
Definition to_end_of_line : Re.cont :=
  λ p u, Re.rmatch (Re.Seq Re.WordB (Re.Star Re.Dot)) p u (λ _ t, Some t).

(** [mk] is one of the discourse markers, in any case. *)
Definition is_marker (mk : string) : Prop :=
  ∃ m, m ∈ thinking_markers ∧ same_icase m mk = true.

(** No match of [r] starts at a position of [pre], in the text [pre]
    followed by [s]; [prev] is the character before [pre]. *)
Fixpoint no_match_inside (r : Re.regex) (prev : option ascii)
    (pre s : string) : bool :=
  match pre with
  | "" => true
  | String c pre' =>
      match Re.match_at r prev (pre +:+ s) with
      | Some _ => false
      | None => no_match_inside r (Some c) pre' s
      end
  end.

(** [c] occurs in [s]. *)
Fixpoint has_char (c : ascii) (s : string) : bool :=
  match s with
  | "" => false
  | String a s' => Ascii.eqb a c || has_char c s'
  end.

(** Somewhere in [s] a colon is followed at once by a word character. *)
Fixpoint colon_then_word (s : string) : bool :=
  match s with
  | "" => false
  | String a s' =>
      (Ascii.eqb a ":"%char && Re.is_word_opt (Str.first_char s'))
      || colon_then_word s'
  end.

(** *** Sentences *)

Definition starts_with_space (s : string) : bool :=
  match s with
  | "" => false
  | String c _ => Ascii.eqb c " "%char
  end.

(** The character [p], if there is one, ends a sentence. *)
Definition is_end_opt (p : option ascii) : bool :=
  match p with
  | None => false
  | Some c => existsb (Ascii.eqb c) sentence_end
  end.

(** Somewhere in [s] a character that ends a sentence is followed at once
    by a space. *)
Fixpoint end_then_space (s : string) : bool :=
  match s with
  | "" => false
  | String a s' =>
      (is_end_opt (Some a) && starts_with_space s') || end_then_space s'
  end.

(** A sentence: it ends with one of [.!?], does not start with a space,
    and holds no shorter sentence followed by a space. *)
Definition is_sentence (s : string) : bool :=
  Str.endswith_any sentence_end s
  && negb (starts_with_space s)
  && negb (end_then_space s).

Fixpoint spaces (n : nat) : string :=
  match n with
  | 0 => ""
  | S n' => String " "%char (spaces n')
  end.

(** The texts of [l] in a row, each followed by one space and as many
    more as given with it, and then [t]. *)
Definition spaced (l : list (string * nat)) (t : string) : string :=
  foldr (λ x acc, x.1 +:+ spaces (S x.2) +:+ acc) t l.

(** ** The session store: [chat_histories] (lines 76-77, 146, 153-155, 162) *)

Definition nl : string := String Char.newline "".

Definition MAX_HISTORY : Z := 3.

(** Lines 142-145 *)
Definition system_prompt : string :=
  "You are a helpful AI assistant. Answer the user's question concisely and accurately. "
  +:+ "Do not explain your reasoning or thought process. Just provide the answer in 1-3 complete sentences"
  +:+ nl +:+ nl.

Inductive role : Type := System | User | Assistant.

Definition role_name (r : role) : string :=
  match r with
  | System => "System"
  | User => "User"
  | Assistant => "Assistant"
  end.

(** [f"{role}: {text}"]: the form of every entry of a history. *)
Definition entry (r : role) (text : string) : string :=
  role_name r +:+ ": " +:+ text.

(** [l[i:]] for any integer [i]: a negative [i] counts from the end, and
    an index outside the list is clamped. *)
Definition slice_from {A : Type} (i : Z) (l : list A) : list A :=
  let n := Z.of_nat (length l) in
  let start := if (i <? 0)%Z then Z.max 0 (n + i) else Z.min i n in
  drop (Z.to_nat start) l.

(** The test of line 154: [len(h) > (MAX_HISTORY * 2 + 1)] *)
Definition too_long (h : list string) : bool :=
  (MAX_HISTORY * 2 + 1 <? Z.of_nat (length h))%Z.

(** The right-hand side of line 155: [[h[0]] + h[-MAX_HISTORY * 2:]].  It
    is evaluated only when the test holds, so [h[0]] exists. *)
Definition keep_recent (h : list string) : list string :=
  match h with
  | [] => []
  | e0 :: _ => [e0] ++ slice_from (- MAX_HISTORY * 2) h
  end.

(** Lines 154-155 *)
Definition trim (h : list string) : list string :=
  if too_long h then keep_recent h else h.

(** Lines 153-155 on the history of one session. *)
Definition append_user (h : list string) (user_input : string) : list string :=
  trim (h ++ [entry User user_input]).

(** Line 162 on the history of one session. *)
Definition append_assistant (h : list string) (response : string) : list string :=
  h ++ [entry Assistant response].

(** Line 157 *)
Definition render (h : list string) : string :=
  Str.join nl h +:+ nl +:+ "Assistant:".

(** Where the handler of a live session is suspended. *)
Inductive phase : Type :=
| Receiving       (* in [receive_text], line 150 *)
| Generating.     (* in the call of the model, lines 159-160 *)

(** The state of the server between two steps of its handlers: the dict
    [chat_histories] and, for every live connection, where its handler is. *)
Record server : Type := Server {
  chat_histories : gmap string (list string);
  phases : gmap string phase
}.

(** The steps of the handlers from one suspension point to the next that
    change [chat_histories]; the handlers of different connections take
    them in any order.  [uuid4] draws an identifier that no live connection
    has. *)
Inductive server_step : server → server → Prop :=
| step_connect st session_id :                      (* lines 138-146 *)
    phases st !! session_id = None →
    server_step st
      (Server (<[session_id := [entry System system_prompt]]> (chat_histories st))
              (<[session_id := Receiving]> (phases st)))
| step_user st session_id h user_input :            (* lines 150-157 *)
    phases st !! session_id = Some Receiving →
    chat_histories st !! session_id = Some h →
    server_step st
      (Server (<[session_id := append_user h user_input]> (chat_histories st))
              (<[session_id := Generating]> (phases st)))
| step_assistant st session_id h response :         (* lines 160-169 *)
    phases st !! session_id = Some Generating →
    chat_histories st !! session_id = Some h →
    server_step st
      (Server (<[session_id := append_assistant h response]> (chat_histories st))
              (<[session_id := Receiving]> (phases st)))
| step_remove st session_id :                       (* lines 171-179 *)
    is_Some (phases st !! session_id) →
    server_step st
      (Server (delete session_id (chat_histories st))
              (delete session_id (phases st))).

(** The states that a run of the server can reach. *)
Definition reachable (st : server) : Prop :=
  rtc server_step (Server ∅ ∅) st.

(** The turn that an entry stands for: a role and a text. *)
Record Turn : Type := MkTurn { turn_role : role; turn_text : string }.

Definition turn_line (t : Turn) : string := entry (turn_role t) (turn_text t).

(** The context in the words of the specification, written out over the
    turns without the functions of the handler: every turn on a line of
    its own, as the name of its role, a colon, a space and its text, and
    after the last of them the line "Assistant:". *)
Fixpoint spec_context (turns : list Turn) : string :=
  match turns with
  | [] => "Assistant:"
  | t :: turns' =>
      match turn_role t with
      | System => "System: "
      | User => "User: "
      | Assistant => "Assistant: "
      end +:+ turn_text t +:+ String "010"%char (spec_context turns')
  end.

(** An entry written by line 153 or by line 162. *)
Definition is_dialogue_entry (e : string) : Prop :=
  ∃ text, e = entry User text ∨ e = entry Assistant text.

(** A history that starts with the System entry of line 146 and goes on
    with entries of lines 153 and 162 only. *)
Definition well_formed (h : list string) : Prop :=
  ∃ rest, h = entry System system_prompt :: rest
          ∧ Forall is_dialogue_entry rest.

(** The entries a history can hold in each phase: at most 7 while the
    model is called, and one more while the next message is awaited. *)
Definition phase_bound (ph : phase) : nat :=
  match ph with
  | Generating => 7
  | Receiving => 8
  end.

(** The history of a session after some rounds of the loop, each with the
    message received and the reply produced. *)
Fixpoint rounds (h : list string) (l : list (string * string)) : list string :=
  match l with
  | [] => h
  | (user_input, response) :: l' =>
      rounds (append_assistant (append_user h user_input) response) l'
  end.

(** ** The connection handler: [websocket_endpoint] (lines 136-179) *)

Module Handler.

(** The exceptions the handler tells apart (lines 171 and 175). *)
Inductive exn : Type :=
| WebSocketDisconnect
| Error (message : string).     (* any other [Exception] *)

(** The lines written with [print]; the time stamps are left out. *)
Inductive console : Type :=
| Connected (session_id : string)
| UserLine (session_id user_input : string)
| AssistantLine (session_id response : string)
| Disconnected (session_id : string)
| ErrorLine (session_id : string) (e : exn).

(** What the handler does to the outside, in order. *)
Inductive event : Type :=
| Accepted                                               (* line 138 *)
| Printed (line : console)
| Generated (context : string)                           (* line 160 *)
| LogChat (session_id user_message ai_response : string) (* line 163 *)
| Sent (text : string)                                   (* lines 166-167 *)
| SocketClosed                                           (* line 177 *)
| GcCollected.

Record world : Type := World {
  chat_histories : gmap string (list string);
  trace : list event
}.

Inductive result (A : Type) : Type :=
| Ok (a : A)
| Raised (e : exn).
Arguments Ok {A} a.
Arguments Raised {A} e.

(** A computation that reads and writes the world and may raise. *)
Definition M (A : Type) : Type := world → result A * world.

#[export] Instance M_ret : MRet M := λ A a w, (Ok a, w).
#[export] Instance M_bind : MBind M := λ A B f m w,
  match m w with
  | (Ok a, w') => f a w'
  | (Raised e, w') => (Raised e, w')
  end.

Definition raise {A : Type} (e : exn) : M A := λ w, (Raised e, w).

Definition emit (ev : event) : M unit := λ w,
  (Ok (), World (chat_histories w) (trace w ++ [ev])).

(** [chat_histories[session_id]]: a missing key raises [KeyError], whose
    text is the [repr] of the key: for the identifiers of line 139, the
    key between single quotes. *)
Definition get_history (session_id : string) : M (list string) := λ w,
  match chat_histories w !! session_id with
  | Some h => (Ok h, w)
  | None => (Raised (Error ("'" +:+ session_id +:+ "'")), w)
  end.

(** [chat_histories[session_id] = h] *)
Definition set_history (session_id : string) (h : list string) : M unit := λ w,
  (Ok (), World (<[session_id := h]> (chat_histories w)) (trace w)).

(** [chat_histories.pop(session_id, None)] *)
Definition pop_history (session_id : string) : M unit := λ w,
  (Ok (), World (delete session_id (chat_histories w)) (trace w)).

(** [chat_histories[session_id].append(x)] *)
Definition append_history (session_id x : string) : M unit :=
  h ← get_history session_id; set_history session_id (h ++ [x]).

(** What the collaborators answer during one round of the loop. *)
Record turn_env : Type := TurnEnv {
  (* [websocket.receive_text()]: the message, or what it raises *)
  on_receive : exn + string;
  (* [generate_response(context)]: the reply, or the message of the error *)
  on_generate : string → string + string;
  (* [database.execute] in [log_chat]: the message of the error, if any *)
  on_log : option string;
  (* the two calls of [websocket.send_text] *)
  on_send_reply : option exn;
  on_send_end : option exn
}.

Definition receive_text (env : turn_env) : M string :=
  match on_receive env with
  | inl e => raise e
  | inr text => mret text
  end.

(** Lines 159-160: the call under [model_lock]. *)
Definition generate (env : turn_env) (context : string) : M string :=
  emit (Generated context);;
  match on_generate env context with
  | inl message => raise (Error message)
  | inr response => mret response
  end.

(** Lines 80-91 *)
Definition log_chat (env : turn_env) (session_id user_message ai_response : string)
    : M unit :=
  emit (LogChat session_id user_message ai_response);;
  match on_log env with
  | Some message => raise (Error message)
  | None => mret ()
  end.

Definition send_text (outcome : option exn) (text : string) : M unit :=
  match outcome with
  | Some e => raise e
  | None => emit (Sent text)
  end.

(** Lines 150-169: one round of [while True]. *)
Definition turn (session_id : string) (env : turn_env) : M unit :=
  user_input ← receive_text env;
  emit (Printed (UserLine session_id user_input));;
  append_history session_id (entry User user_input);;
  h ← get_history session_id;
  (if too_long h then
     h ← get_history session_id;
     set_history session_id (keep_recent h)
   else mret ());;
  h ← get_history session_id;
  let context := Str.join nl h +:+ nl +:+ "Assistant:" in
  response ← generate env context;
  append_history session_id (entry Assistant response);;
  log_chat env session_id user_input response;;
  emit (Printed (AssistantLine session_id response));;
  send_text (on_send_reply env) response;;
  send_text (on_send_end env) "[END]";;
  emit GcCollected.

(** The loop, for the rounds the environment provides; after the last of
    them the handler is waiting in [receive_text]. *)
Fixpoint serve (session_id : string) (envs : list turn_env) : M unit :=
  match envs with
  | [] => mret ()
  | env :: envs' => turn session_id env;; serve session_id envs'
  end.

Inductive status : Type :=
| Open       (* waiting for the next message *)
| Closed.    (* the handler has returned *)

(** Lines 171-179: the two [except] clauses.  [websocket.close()] is
    taken to return normally. *)
Definition on_exception (session_id : string) (e : exn) : M unit :=
  match e with
  | WebSocketDisconnect =>
      emit (Printed (Disconnected session_id));;
      pop_history session_id;;
      emit GcCollected
  | Error _ =>
      emit (Printed (ErrorLine session_id e));;
      emit SocketClosed;;
      pop_history session_id;;
      emit GcCollected
  end.

(** Lines 148-179: the loop inside [try], from a round on. *)
Definition guarded_loop (session_id : string) (envs : list turn_env)
    : M status := λ w,
  match serve session_id envs w with
  | (Ok _, w1) => (Ok Open, w1)
  | (Raised e, w1) =>
      match on_exception session_id e w1 with
      | (Ok _, w2) => (Ok Closed, w2)
      | (Raised e', w2) => (Raised e', w2)
      end
  end.

(** Lines 137-179, for the session id drawn at line 139. *)
Definition websocket_endpoint (session_id : string) (envs : list turn_env)
    : M status :=
  emit Accepted;;
  emit (Printed (Connected session_id));;
  set_history session_id [entry System system_prompt];;
  guarded_loop session_id envs.

(** The texts sent to the client, and the contexts given to the model. *)
Definition sent (tr : list event) : list string :=
  omap (λ ev, match ev with Sent t => Some t | _ => None end) tr.

Definition generated (tr : list event) : list string :=
  omap (λ ev, match ev with Generated c => Some c | _ => None end) tr.

(** The calls of [log_chat], with their arguments. *)
Definition logged (tr : list event) : list (string * string * string) :=
  omap (λ ev, match ev with
              | LogChat session_id user_message ai_response =>
                  Some (session_id, user_message, ai_response)
              | _ => None
              end) tr.

(** A round in which nothing fails: the message [user_input] arrives, the
    model answers [response], the write of the log and both sends succeed. *)
Definition ok_env (round : string * string) : turn_env :=
  TurnEnv (inr round.1) (λ _, inr round.2) None None None.

(** The events of such a round, in order. *)
Definition round_events (session_id : string) (context : string)
    (round : string * string) : list event :=
  [Printed (UserLine session_id round.1);
   Generated context;
   LogChat session_id round.1 round.2;
   Printed (AssistantLine session_id round.2);
   Sent round.2;
   Sent "[END]";
   GcCollected].

(** [m] belongs to the session [session_id]: it leaves the histories of
    the other sessions as they are, and what it does to the outside is
    added at the end of the trace. *)
Definition local_to (session_id : string) {A : Type} (m : M A) : Prop :=
  ∀ w,
    (∀ other, other ≠ session_id →
       chat_histories (m w).2 !! other = chat_histories w !! other)
    ∧ ∃ evs, trace (m w).2 = trace w ++ evs.

(** [m] reads of [chat_histories] the history of the session [session_id]
    only: from two worlds that agree on that history it gives the same
    result, the same history of the session, and does the same to the
    outside. *)
Definition reads_own (session_id : string) {A : Type} (m : M A) : Prop :=
  ∀ w1 w2,
    chat_histories w1 !! session_id = chat_histories w2 !! session_id →
    (m w1).1 = (m w2).1
    ∧ chat_histories (m w1).2 !! session_id
      = chat_histories (m w2).2 !! session_id
    ∧ ∃ evs, trace (m w1).2 = trace w1 ++ evs
             ∧ trace (m w2).2 = trace w2 ++ evs.

(** Replies are logged before they are sent, and the model is called
    before a reply is logged: a bound on the sends by the calls of
    [log_chat], and on these by the calls of the model. *)
Definition orderly (evs : list event) : Prop :=
  length (sent evs) ≤ 2 * length (logged evs)
  ∧ length (logged evs) ≤ length (generated evs).

End Handler.

(** ** The lock around the model: [model_lock] (lines 78 and 159-160)

    [torch] has no attribute [Lock], so [model_lock] is an [asyncio.Lock]:
    [async with model_lock] waits until the lock is free and takes it, and
    gives it back when the block is left, by return or by exception.  The
    handlers run as tasks of one event loop; [generate_response] runs in a
    worker thread while its handler waits.  A state of the system records
    where each handler is in lines 159-160; the handlers take their steps
    in any order.  Tasks are not cancelled. *)

Module ModelLock.

(** Where a handler is. *)
Inductive pc : Type :=
| AtLock (context : string)         (* at line 159, lock not yet taken *)
| Holding (context : string)        (* lock taken, call not yet started *)
| Running (context : string)        (* [generate_response] is executing *)
| Returned (outcome : string + string)  (* it returned or raised; lock still held *)
| Past.                             (* the block is left, lock given back *)

(** The start and the end of an execution of [generate_response]. *)
Inductive call_event : Type :=
| Start (session : nat) (context : string)
| End (session : nat).

Record state : Type := State {
  locked : bool;
  handlers : list pc;        (* handler [i] serves session [i] *)
  calls : list call_event    (* the starts and ends so far, oldest first *)
}.

Inductive step : state → state → Prop :=
| acquire st i c :
    locked st = false →
    handlers st !! i = Some (AtLock c) →
    step st (State true (<[i := Holding c]> (handlers st)) (calls st))
| start st i c :
    handlers st !! i = Some (Holding c) →
    step st (State (locked st) (<[i := Running c]> (handlers st))
               (calls st ++ [Start i c]))
| finish st i c outcome :
    handlers st !! i = Some (Running c) →
    step st (State (locked st) (<[i := Returned outcome]> (handlers st))
               (calls st ++ [End i]))
| release st i outcome :
    handlers st !! i = Some (Returned outcome) →
    step st (State false (<[i := Past]> (handlers st)) (calls st)).

(** Every session has issued one message; [contexts] are the rendered
    contexts, one per session. *)
Definition init (contexts : list string) : state :=
  State false (AtLock <$> contexts) [].

Definition final (st : state) : Prop :=
  Forall (λ p, p = Past) (handlers st).

(** Reading the calls from the oldest on, with the session whose call is
    executing: a [Start] while a call is executing, or an [End] of a call
    that is not the executing one, is an overlap. *)
Fixpoint replay (executing : option nat) (l : list call_event)
    : option (option nat) :=
  match l with
  | [] => Some executing
  | Start i _ :: l' =>
      match executing with
      | None => replay (Some i) l'
      | Some _ => None
      end
  | End i :: l' =>
      match executing with
      | Some j => if decide (i = j) then replay None l' else None
      | None => None
      end
  end.

(** No two executions overlap. *)
Definition serialized (l : list call_event) : Prop :=
  is_Some (replay None l).

Definition is_start (e : call_event) : bool :=
  match e with
  | Start _ _ => true
  | End _ => false
  end.

(** The number of executions of [generate_response] begun so far. *)
Definition count_calls (l : list call_event) : nat :=
  length (filter is_start l).

(** Steps still to be taken by a handler. *)
Definition remaining (p : pc) : nat :=
  match p with
  | AtLock _ => 4
  | Holding _ => 3
  | Running _ => 2
  | Returned _ => 1
  | Past => 0
  end.

Definition in_block (p : pc) : bool :=
  match p with
  | Holding _ | Running _ | Returned _ => true
  | _ => false
  end.

Definition has_started (p : pc) : bool :=
  match p with
  | Running _ | Returned _ | Past => true
  | _ => false
  end.

(** The steps still to be taken by all handlers. *)
Definition work_left (st : state) : nat :=
  sum_list (remaining <$> handlers st).

(** What every reachable state of [n] sessions satisfies: the lock is
    taken exactly when a handler is inside the block, at most one handler
    is; the calls so far replay without overlap, with the executing call
    that of the handler that is [Running]; and the calls begun are those of
    the handlers that have got as far. *)
Definition invariant (n : nat) (st : state) : Prop :=
  length (handlers st) = n
  ∧ (locked st = false →
     ∀ i p, handlers st !! i = Some p → in_block p = false)
  ∧ (locked st = true →
     ∃ i p, handlers st !! i = Some p ∧ in_block p = true)
  ∧ (∀ i j p q,
       handlers st !! i = Some p → handlers st !! j = Some q →
       in_block p = true → in_block q = true → i = j)
  ∧ (∃ o, replay None (calls st) = Some o
          ∧ ∀ i, o = Some i ↔ ∃ c, handlers st !! i = Some (Running c))
  ∧ count_calls (calls st) = length (filter has_started (handlers st)).

End ModelLock.

(** * Properties *)

(** ** Strings *)

Section StrFacts.

Lemma last_char_nonempty s d d' :
  s ≠ "" → Str.last_char s d = Str.last_char s d'.
Proof. destruct s; [done | reflexivity]. Qed.

Lemma last_char_app_one s c d :
  Str.last_char (s +:+ String c "") d = Some c.
Proof. revert d. induction s as [|a s IH]; intros d; simpl; [done | apply IH]. Qed.

Lemma last_char_some_nonempty s c :
  Str.last_char s None = Some c → s ≠ "".
Proof. by destruct s. Qed.

Lemma lstrip_last_char s c :
  Str.last_char s None = Some c → Char.is_space c = false →
  Str.last_char (Str.lstrip s) None = Some c.
Proof.
  induction s as [|a s IH]; intros Hl Hc; [done |].
  simpl. destruct (Char.is_space a) eqn:Ha; [| done].
  apply IH; [| done].
  destruct s as [|b s]; simpl in *; [congruence | done].
Qed.

Lemma rstrip_nonempty s c d :
  s ≠ "" → Str.last_char s d = Some c → Char.is_space c = false →
  Str.rstrip s ≠ "".
Proof.
  revert d. induction s as [|a s IH]; intros d Hs Hl Hc; [done |].
  simpl in *. destruct s as [|b s].
  - simpl in *. injection Hl as ->. by rewrite Hc.
  - assert (Str.rstrip (String b s) ≠ "") as Hne by (by eapply IH).
    by destruct (Str.rstrip (String b s)).
Qed.

Lemma strip_nonempty s c :
  Str.last_char s None = Some c → Char.is_space c = false →
  Str.strip s ≠ "".
Proof.
  intros Hl Hc. unfold Str.strip.
  pose proof (lstrip_last_char s c Hl Hc) as Hl'.
  eapply rstrip_nonempty; [by eapply last_char_some_nonempty | done..].
Qed.

Lemma replace_char_last a b s d c :
  Str.last_char s d = Some c → c ≠ a →
  Str.last_char (Str.replace_char a b s) d = Some c.
Proof.
  revert d. induction s as [|x s IH]; intros d Hl Hc; [done |].
  cbn [Str.replace_char Str.last_char] in *.
  destruct s as [|y s].
  - cbn in *. injection Hl as ->.
    by destruct (Ascii.eqb_spec c a).
  - rewrite (last_char_nonempty _ _ (Some x)) by done.
    by apply IH.
Qed.

End StrFacts.

(** ** Regular expressions: a match takes at least [min_len] characters *)

Section ReFacts.

Implicit Types (r : Re.regex) (p : option ascii) (s t : string) (k : Re.cont).

Lemma lit_match_consumes icase l p s k t :
  Re.lit_match icase l p s k = Some t → Re.reaches k t (Str.length l) s.
Proof.
  revert p s. induction l as [| a l IH]; intros p s Hm.
  - exists p, s. split; [done | cbn; lia].
  - destruct s as [| c s]; [done |]. cbn [Re.lit_match] in Hm.
    destruct (if icase then _ else _); [| done].
    destruct (IH _ _ Hm) as (p' & u & Hk & Hlen).
    exists p', u. split; [done | cbn; lia].
Qed.

Lemma star_greedy_consumes cl p s k t :
  Re.star_greedy cl p s k = Some t → Re.reaches k t 0 s.
Proof.
  revert p. induction s as [| c s IH]; intros p Hm.
  - exists p, "". split; [done | cbn; lia].
  - cbn [Re.star_greedy] in Hm.
    assert (k p (String c s) = Some t → Re.reaches k t 0 (String c s)) as Hstop.
    { intros Hk. exists p, (String c s). split; [done | lia]. }
    destruct (Re.accepts cl c); [| by apply Hstop].
    destruct (Re.star_greedy cl (Some c) s k) as [t' |] eqn:Hrec;
      [| by apply Hstop].
    injection Hm as ->. destruct (IH _ Hrec) as (p' & u & Hk & Hlen).
    exists p', u. split; [done | cbn; lia].
Qed.

Lemma star_lazy_consumes cl p s k t :
  Re.star_lazy cl p s k = Some t → Re.reaches k t 0 s.
Proof.
  revert p. induction s as [| c s IH]; intros p Hm.
  - cbn [Re.star_lazy] in Hm. destruct (k p "") eqn:Hk; [| done].
    exists p, "". split; [congruence | cbn; lia].
  - cbn [Re.star_lazy] in Hm. destruct (k p (String c s)) eqn:Hk.
    + exists p, (String c s). split; [congruence | lia].
    + destruct (Re.accepts cl c); [| done].
      destruct (IH _ Hm) as (p' & u & Hk' & Hlen).
      exists p', u. split; [done | cbn; lia].
Qed.

Lemma rmatch_consumes r p s k t :
  Re.rmatch r p s k = Some t → Re.reaches k t (Re.min_len r) s.
Proof.
  revert p s k. induction r as [icase l | r1 IH1 r2 IH2 | r1 IH1 r2 IH2
                               | cl | cl | cl | | cl]; intros p s k Hm;
    cbn [Re.rmatch Re.min_len] in *.
  - by eapply lit_match_consumes.
  - destruct (IH1 _ _ _ Hm) as (p1 & u1 & Hk1 & Hlen1).
    destruct (IH2 _ _ _ Hk1) as (p2 & u2 & Hk2 & Hlen2).
    exists p2, u2. split; [done | lia].
  - destruct (Re.rmatch r1 p s k) as [t' |] eqn:H1.
    + injection Hm as ->. destruct (IH1 _ _ _ H1) as (p' & u & Hk & Hlen).
      exists p', u. split; [done | lia].
    + destruct (IH2 _ _ _ Hm) as (p' & u & Hk & Hlen).
      exists p', u. split; [done | lia].
  - by eapply star_greedy_consumes.
  - by eapply star_lazy_consumes.
  - destruct s as [| c s]; [done |]. destruct (Re.accepts cl c); [| done].
    destruct (star_greedy_consumes _ _ _ _ _ Hm) as (p' & u & Hk & Hlen).
    exists p', u. split; [done | cbn; lia].
  - destruct (Re.at_word_boundary p s); [| done].
    exists p, s. split; [done | lia].
  - destruct p as [c |]; [| done]. destruct (Re.accepts cl c); [| done].
    exists (Some c), s. split; [done | lia].
Qed.

Lemma match_len_at_least r p s n :
  Re.match_len r p s = Some n → Re.min_len r ≤ n.
Proof.
  unfold Re.match_len, Re.match_at.
  destruct (Re.rmatch r p s _) as [t |] eqn:Hm; [| done].
  intros [= <-]. destruct (rmatch_consumes _ _ _ _ _ Hm) as (p' & u & Hk & Hlen).
  injection Hk as ->. lia.
Qed.

(** No pattern of the program matches the empty text, so [re.sub] and
    [re.split] never meet an empty match. *)
Lemma patterns_never_empty r p s :
  r ∈ [tag_re; turn_marker_re; thinking_re; sentence_gap_re] →
  Re.match_len r p s ≠ Some 0.
Proof.
  intros Hr Hm. apply match_len_at_least in Hm.
  repeat (apply elem_of_cons in Hr as [-> | Hr]; [cbn in Hm; lia |]).
  by apply elem_of_nil in Hr.
Qed.

End ReFacts.

(** ** The reply clean-up *)

Lemma close_sentence_last response :
  ∃ c, Str.last_char (close_sentence response) None = Some c ∧ c ∈ sentence_end.
Proof.
  unfold close_sentence, Str.endswith_any.
  destruct (Str.last_char response None) as [c|] eqn:Hl.
  - destruct (existsb (Ascii.eqb c) sentence_end) eqn:Hex.
    + exists c. split; [done |].
      apply existsb_exists in Hex as (x & Hin & Heq).
      apply Ascii.eqb_eq in Heq as ->. by apply list_elem_of_In.
    + exists "."%char. split; [apply last_char_app_one | set_solver].
  - exists "."%char. split; [apply last_char_app_one | set_solver].
Qed.

Lemma sentence_end_plain c :
  c ∈ sentence_end → Char.is_space c = false ∧ c ≠ Char.newline.
Proof.
  unfold sentence_end. rewrite !elem_of_cons, elem_of_nil.
  intros [-> | [-> | [-> | []]]]; done.
Qed.

Lemma final_cleanup_nonempty response c :
  Str.last_char response None = Some c → c ∈ sentence_end →
  final_cleanup response ≠ "".
Proof.
  intros Hl [Hsp Hnl]%sentence_end_plain. unfold final_cleanup.
  eapply strip_nonempty; [| exact Hsp].
  by apply replace_char_last.
Qed.

(** C8. [sanitize] is a total function whose result is never the empty
    text; when steps 1 to 6 leave nothing the result is the one-character
    text ".", and so it is for the empty input. *)
Theorem sanitize_nonempty :
  (∀ decoded, ∃ reply, sanitize decoded = reply ∧ reply ≠ "")
  ∧ (∀ decoded, steps_1_6 decoded = "" → sanitize decoded = ".")
  ∧ sanitize "" = ".".
Proof.
  split; [| split].
  - intros decoded. eexists; split; [reflexivity |].
    unfold sanitize.
    destruct (close_sentence_last (steps_1_6 decoded)) as (c & Hl & Hc).
    by eapply final_cleanup_nonempty.
  - intros decoded Hempty. unfold sanitize. by rewrite Hempty.
  - reflexivity.
Qed.

Lemma sanitize_nonempty_witness :
  steps_1_6 "  <b></b> " = "" ∧ sanitize "  <b></b> " = ".".
Proof.
  split; [reflexivity |].
  apply (proj1 (proj2 sanitize_nonempty)). reflexivity.
Defined.

(** C3, as the program computes it: the reply to
    "Assistant: Hello there! Wait, actually never mind." ends in the
    exclamation mark it already has, and no period is added. *)
Theorem sanitize_hello :
  sanitize "Assistant: Hello there! Wait, actually never mind." = "Hello there!".
Proof. reflexivity. Qed.

(** C3 as stated fails: the result is not "Hello there!.". *)
Lemma sanitize_hello_not_period :
  sanitize "Assistant: Hello there! Wait, actually never mind." ≠ "Hello there!.".
Proof. by vm_compute. Qed.

(** ** The session store *)

Section History.

Implicit Types (h rest : list string) (st : server).

Lemma slice_from_neg {A} (k : nat) (i : Z) (l : list A) :
  i = (- Z.of_nat k)%Z → k ≠ 0 → slice_from i l = drop (length l - k) l.
Proof.
  intros -> Hk. unfold slice_from.
  destruct (Z.ltb_spec (- Z.of_nat k) 0) as [_|]; [| lia].
  f_equal. lia.
Qed.

Lemma trim_short h : length h ≤ 7 → trim h = h.
Proof.
  intros Hlen. unfold trim, too_long, MAX_HISTORY.
  destruct (Z.ltb_spec (3 * 2 + 1) (Z.of_nat (length h))); [lia | done].
Qed.

Lemma trim_long e0 rest :
  7 ≤ length rest → trim (e0 :: rest) = e0 :: drop (length rest - 6) rest.
Proof.
  intros Hlen. unfold trim, too_long, keep_recent, MAX_HISTORY.
  destruct (Z.ltb_spec (3 * 2 + 1) (Z.of_nat (length (e0 :: rest))));
    [| simpl in *; lia].
  rewrite (slice_from_neg 6) by (lia || done). simpl length.
  replace (S (length rest) - 6) with (S (length rest - 6)) by lia.
  done.
Qed.

Lemma trim_cases h :
  (length h ≤ 7 ∧ trim h = h)
  ∨ (∃ e0 rest, h = e0 :: rest ∧ 7 ≤ length rest
       ∧ trim h = e0 :: drop (length rest - 6) rest).
Proof.
  destruct (decide (length h ≤ 7)) as [Hle | Hgt].
  - left. split; [done | by apply trim_short].
  - right. destruct h as [|e0 rest]; [simpl in *; lia |].
    exists e0, rest. simpl in Hgt.
    split; [done |]. split; [lia |]. apply trim_long. lia.
Qed.

Lemma trim_length h : length (trim h) ≤ 7.
Proof.
  destruct (trim_cases h) as [[Hle ->] | (e0 & rest & -> & Hlen & ->)];
    [done |].
  simpl. rewrite length_drop. lia.
Qed.

Lemma trim_head h : head (trim h) = head h.
Proof.
  destruct (trim_cases h) as [[_ ->] | (e0 & rest & -> & _ & ->)]; done.
Qed.

Lemma append_user_length h user_input :
  length (append_user h user_input) ≤ 7.
Proof. apply trim_length. Qed.

Lemma append_user_head h user_input :
  h ≠ [] → head (append_user h user_input) = head h.
Proof.
  intros Hne. unfold append_user. rewrite trim_head.
  by destruct h.
Qed.

Lemma append_assistant_head h response :
  h ≠ [] → head (append_assistant h response) = head h.
Proof. intros Hne. by destruct h. Qed.

Lemma well_formed_append_user h user_input :
  well_formed h → well_formed (append_user h user_input).
Proof.
  intros (rest & -> & Hrest). unfold append_user.
  assert (Forall is_dialogue_entry (rest ++ [entry User user_input])) as Hall.
  { apply Forall_app. split; [done |].
    apply Forall_singleton. exists user_input. by left. }
  rewrite <- app_comm_cons.
  destruct (trim_cases (entry System system_prompt
                          :: (rest ++ [entry User user_input])))
    as [[_ ->] | (e0 & rest' & Heq & _ & ->)].
  - by eexists.
  - injection Heq as <- <-. eexists. split; [done |].
    by apply Forall_drop.
Qed.

Lemma well_formed_append_assistant h response :
  well_formed h → well_formed (append_assistant h response).
Proof.
  intros (rest & -> & Hrest). exists (rest ++ [entry Assistant response]).
  split; [done |]. apply Forall_app. split; [done |].
  apply Forall_singleton. exists response. by right.
Qed.

(** An invariant of the server is a property of phases and histories
    that a new session has and that the two appends keep. *)
Lemma server_invariant (P : phase → list string → Prop) :
  P Receiving [entry System system_prompt] →
  (∀ h user_input, P Receiving h → P Generating (append_user h user_input)) →
  (∀ h response, P Generating h → P Receiving (append_assistant h response)) →
  ∀ st, reachable st →
    ∀ session_id h, chat_histories st !! session_id = Some h →
      ∃ ph, phases st !! session_id = Some ph ∧ P ph h.
Proof.
  intros Hinit Huser Hassistant. unfold reachable.
  apply (rtc_ind_r (λ st, ∀ session_id h,
           chat_histories st !! session_id = Some h →
           ∃ ph, phases st !! session_id = Some ph ∧ P ph h)).
  { intros ?? Hl. simpl in Hl. by rewrite lookup_empty in Hl. }
  intros s1 s2 Hs1 Hstep IH sid h Hl.
  destruct Hstep as [st sid' Hph | st sid' h' u Hph Hl' | st sid' h' r Hph Hl'
                    | st sid' Hph]; simpl in *.
  - destruct (decide (sid' = sid)) as [-> | Hne].
    + rewrite lookup_insert_eq in Hl. injection Hl as <-.
      rewrite lookup_insert_eq. eauto.
    + rewrite lookup_insert_ne in Hl by done.
      rewrite lookup_insert_ne by done. eauto.
  - destruct (decide (sid' = sid)) as [-> | Hne].
    + rewrite lookup_insert_eq in Hl. injection Hl as <-.
      rewrite lookup_insert_eq. eexists. split; [done |].
      apply Huser. destruct (IH _ _ Hl') as (ph & Hph' & HP).
      congruence.
    + rewrite lookup_insert_ne in Hl by done.
      rewrite lookup_insert_ne by done. eauto.
  - destruct (decide (sid' = sid)) as [-> | Hne].
    + rewrite lookup_insert_eq in Hl. injection Hl as <-.
      rewrite lookup_insert_eq. eexists. split; [done |].
      apply Hassistant. destruct (IH _ _ Hl') as (ph & Hph' & HP).
      congruence.
    + rewrite lookup_insert_ne in Hl by done.
      rewrite lookup_insert_ne by done. eauto.
  - destruct (decide (sid' = sid)) as [-> | Hne].
    + by rewrite lookup_delete_eq in Hl.
    + rewrite lookup_delete_ne in Hl by done.
      rewrite lookup_delete_ne by done. eauto.
Qed.

Lemma reachable_step st st' :
  reachable st → server_step st st' → reachable st'.
Proof. intros Hr Hs. by eapply rtc_r. Qed.

Lemma reachable_well_formed st session_id h :
  reachable st → chat_histories st !! session_id = Some h → well_formed h.
Proof.
  intros Hr Hl.
  assert (∃ ph, phases st !! session_id = Some ph ∧ well_formed h)
    as (ph & _ & Hwf); [| done].
  revert st Hr session_id h Hl.
  apply (server_invariant (λ _, well_formed)).
  - exists []. by split.
  - intros. by apply well_formed_append_user.
  - intros. by apply well_formed_append_assistant.
Qed.

Lemma reachable_phase_bound st session_id h :
  reachable st → chat_histories st !! session_id = Some h →
  ∃ ph, phases st !! session_id = Some ph ∧ length h ≤ phase_bound ph.
Proof.
  intros Hr Hl. revert st Hr session_id h Hl.
  apply (server_invariant (λ ph h, length h ≤ phase_bound ph)).
  - simpl. lia.
  - intros h' u _. apply append_user_length.
  - intros h' r Hle. unfold append_assistant. rewrite length_app.
    simpl in *. lia.
Qed.

(** One session played alone: the server after the rounds [l]. *)
Lemma rounds_reachable st session_id h l :
  reachable st →
  phases st !! session_id = Some Receiving →
  chat_histories st !! session_id = Some h →
  reachable (Server (<[session_id := rounds h l]> (chat_histories st))
                    (phases st)).
Proof.
  revert st h. induction l as [| [u r] l IH]; intros st h Hr Hph Hl.
  - simpl. rewrite insert_id by done. by destruct st.
  - simpl.
    pose proof (reachable_step _ _ Hr (step_user st session_id h u Hph Hl))
      as Hr1.
    eassert (reachable _) as Hr2.
    { eapply reachable_step; [exact Hr1 |].
      eapply (step_assistant _ session_id (append_user h u) r); simpl;
        apply lookup_insert_eq. }
    simpl in Hr2. rewrite !insert_insert_eq in Hr2.
    rewrite (insert_id (phases st)) in Hr2 by done.
    specialize (IH _ (append_assistant (append_user h u) r) Hr2).
    simpl in IH. rewrite insert_insert_eq in IH.
    apply IH; [done | apply lookup_insert_eq].
Qed.

(** A server with the single session [session_id] after the rounds [l]. *)
Lemma single_session_reachable session_id l :
  reachable (Server {[session_id := rounds [entry System system_prompt] l]}
                    {[session_id := Receiving]}).
Proof.
  pose proof (rounds_reachable
    (Server {[session_id := [entry System system_prompt]]}
            {[session_id := Receiving]})
    session_id [entry System system_prompt] l) as H.
  simpl in H. rewrite insert_singleton_eq in H. apply H.
  - eapply reachable_step; [apply rtc_refl |].
    apply (step_connect (Server ∅ ∅) session_id). apply lookup_empty.
  - apply lookup_singleton_eq.
  - apply lookup_singleton_eq.
Qed.

End History.

Lemma dialogue_entry_not_system e text :
  is_dialogue_entry e → e ≠ entry System text.
Proof. by intros (t & [-> | ->]). Qed.

(** A session that has gone through four rounds holds eight entries, the
    last of them an Assistant turn. *)
Lemma eight_entries_reachable :
  ∃ st h response,
    reachable st ∧ phases st !! "s" = Some Receiving
    ∧ chat_histories st !! "s" = Some (h ++ [entry Assistant response])
    ∧ length (h ++ [entry Assistant response]) = 8.
Proof.
  eexists _, _, "Yes.". split; [| split; [| split]].
  - apply (single_session_reachable "s" (replicate 4 ("Hi", "Yes."))).
  - apply lookup_singleton_eq.
  - simpl. rewrite lookup_singleton_eq. f_equal.
  - reflexivity.
Qed.

(** Between line 153 and line 155, which no suspension point separates,
    the list of a session can hold nine entries. *)
Lemma untrimmed_append_nine :
  ∃ st h,
    reachable st ∧ chat_histories st !! "s" = Some h
    ∧ length (h ++ [entry User "Hi"]) = 9
    ∧ length (append_user h "Hi") = 7.
Proof.
  destruct eight_entries_reachable as (st & h & r & Hr & _ & Hl & Hlen).
  exists st, (h ++ [entry Assistant r]). split; [done |]. split; [done |].
  split; [rewrite length_app; cbn; lia |].
  unfold append_user.
  destruct (h ++ [entry Assistant r]) as [| e0 rest] eqn:Heq;
    [cbn in Hlen; lia |].
  rewrite <- app_comm_cons, trim_long;
    cbn in *; rewrite ?length_drop, !length_app; cbn; lia.
Qed.

(** C10. In every reachable state every history holds at most
    [2 + 2 * MAX_HISTORY] entries, which is 8; a history of 8 entries is
    reached right after an Assistant turn is appended, and the next User
    turn brings it to [1 + 2 * MAX_HISTORY], the trim being part of that
    append only. *)
Theorem history_at_most_eight :
  (∀ st session_id h,
     reachable st → chat_histories st !! session_id = Some h →
     (Z.of_nat (length h) ≤ 2 + 2 * MAX_HISTORY)%Z)
  ∧ (∃ st session_id h response,
       reachable st ∧ phases st !! session_id = Some Receiving
       ∧ chat_histories st !! session_id = Some (h ++ [entry Assistant response])
       ∧ (Z.of_nat (length (h ++ [entry Assistant response]))
          = 2 + 2 * MAX_HISTORY)%Z)
  ∧ (∀ h user_input,
       (Z.of_nat (length h) = 2 + 2 * MAX_HISTORY)%Z →
       (Z.of_nat (length (append_user h user_input)) = 1 + 2 * MAX_HISTORY)%Z).
Proof.
  unfold MAX_HISTORY. split; [| split].
  - intros st sid h Hr Hl.
    destruct (reachable_phase_bound st sid h Hr Hl) as (ph & _ & Hle).
    destruct ph; simpl in Hle; lia.
  - destruct eight_entries_reachable as (st & h & r & Hr & Hph & Hl & Hlen).
    exists st, "s", h, r. repeat split; [done.. |]. lia.
  - intros h u Hlen. unfold append_user.
    destruct h as [| e0 rest]; [simpl in Hlen; lia |].
    rewrite <- app_comm_cons, trim_long;
      simpl in *; rewrite ?length_drop, !length_app; simpl; lia.
Qed.

Lemma history_at_most_eight_witness :
  (Z.of_nat (length (replicate 8 "x")) = 2 + 2 * MAX_HISTORY)%Z
  ∧ (Z.of_nat (length (append_user (replicate 8 "x") "Hi"))
     = 1 + 2 * MAX_HISTORY)%Z.
Proof.
  split; [reflexivity |].
  apply (proj2 (proj2 history_at_most_eight)). reflexivity.
Defined.

(** C1, as the program keeps it: while the model is called, that is from
    the append of a User turn (with its trim) until the Assistant turn is
    appended, a history holds at most [1 + 2 * MAX_HISTORY] entries. *)
Theorem history_bounded_while_generating st session_id h :
  reachable st →
  chat_histories st !! session_id = Some h →
  phases st !! session_id = Some Generating →
  (Z.of_nat (length h) ≤ 1 + 2 * MAX_HISTORY)%Z.
Proof.
  intros Hr Hl Hph.
  destruct (reachable_phase_bound st session_id h Hr Hl) as (ph & Hph' & Hle).
  assert (ph = Generating) as -> by congruence.
  unfold MAX_HISTORY. simpl in Hle. lia.
Qed.

Lemma history_bounded_while_generating_witness :
  (Z.of_nat (length (append_user [entry System system_prompt] "Hi"))
   ≤ 1 + 2 * MAX_HISTORY)%Z.
Proof.
  apply (history_bounded_while_generating
           (Server {[ "s" := append_user [entry System system_prompt] "Hi" ]}
                   {[ "s" := Generating ]}) "s").
  - eapply reachable_step.
    + eapply reachable_step; [apply rtc_refl |].
      apply (step_connect (Server ∅ ∅) "s"). apply lookup_empty.
    + eapply (eq_ind _ (server_step _));
        [apply (step_user _ "s" [entry System system_prompt] "Hi");
         apply lookup_insert_eq |].
      simpl. by rewrite !insert_insert_eq, !insert_empty.
  - apply lookup_singleton_eq.
  - apply lookup_singleton_eq.
Defined.

(** C1 as stated fails: a reachable history, right after an Assistant
    turn, holds more than [1 + 2 * MAX_HISTORY] entries. *)
Lemma history_bound_exceeded :
  ¬ (∀ st session_id h,
       reachable st → chat_histories st !! session_id = Some h →
       (Z.of_nat (length h) ≤ 1 + 2 * MAX_HISTORY)%Z).
Proof.
  intros Hall.
  destruct eight_entries_reachable as (st & h & r & Hr & _ & Hl & Hlen).
  specialize (Hall st "s" _ Hr Hl). unfold MAX_HISTORY in Hall. lia.
Qed.

(** C6. In every reachable state every history starts with the System
    entry of the fixed prompt and goes on with User and Assistant entries
    only, none of which is a System entry; the two appends and the trim
    keep the first entry. *)
Theorem system_turn_first :
  (∀ st session_id h,
     reachable st → chat_histories st !! session_id = Some h →
     ∃ rest, h = entry System system_prompt :: rest
             ∧ Forall is_dialogue_entry rest
             ∧ Forall (λ e, ∀ text, e ≠ entry System text) rest)
  ∧ (∀ h user_input, h ≠ [] → head (append_user h user_input) = head h)
  ∧ (∀ h response, h ≠ [] → head (append_assistant h response) = head h)
  ∧ (∀ h, head (trim h) = head h).
Proof.
  split; [| split; [| split]].
  - intros st sid h Hr Hl.
    destruct (reachable_well_formed st sid h Hr Hl) as (rest & -> & Hrest).
    exists rest. split; [done |]. split; [done |].
    eapply Forall_impl; [exact Hrest |].
    intros e He text. by apply dialogue_entry_not_system.
  - apply append_user_head.
  - apply append_assistant_head.
  - apply trim_head.
Qed.

Lemma system_turn_first_witness :
  ∃ rest, rounds [entry System system_prompt] (replicate 5 ("Hi", "Yes."))
          = entry System system_prompt :: rest
          ∧ Forall is_dialogue_entry rest
          ∧ Forall (λ e, ∀ text, e ≠ entry System text) rest.
Proof.
  apply (proj1 system_turn_first
           (Server {[ "s" := rounds [entry System system_prompt]
                                (replicate 5 ("Hi", "Yes.")) ]}
                   {[ "s" := Receiving ]}) "s").
  - apply single_session_reachable.
  - apply lookup_singleton_eq.
Defined.

(** C5. When the append of a User turn makes a history longer than
    [1 + 2 * MAX_HISTORY], the new history is the System entry followed by
    the last [2 * MAX_HISTORY] entries, the new one included; the entries
    between, the oldest, are dropped. *)
Theorem trim_keeps_most_recent st session_id h user_input :
  reachable st →
  chat_histories st !! session_id = Some h →
  (1 + 2 * MAX_HISTORY < Z.of_nat (length (h ++ [entry User user_input])))%Z →
  ∃ dropped kept,
    h ++ [entry User user_input]
      = entry System system_prompt :: dropped ++ kept
    ∧ dropped ≠ []
    ∧ (Z.of_nat (length kept) = 2 * MAX_HISTORY)%Z
    ∧ append_user h user_input = entry System system_prompt :: kept.
Proof.
  unfold MAX_HISTORY. intros Hr Hl Hlen.
  destruct (reachable_well_formed st session_id h Hr Hl) as (rest & -> & _).
  rewrite <- app_comm_cons in *. simpl in Hlen.
  set (l := rest ++ [entry User user_input]) in *.
  assert (7 ≤ length l) as Hl7 by lia.
  exists (take (length l - 6) l), (drop (length l - 6) l).
  split; [by rewrite take_drop |]. split; [| split].
  - intros Hnil. apply (f_equal length) in Hnil.
    rewrite length_take in Hnil. simpl in Hnil. lia.
  - rewrite length_drop. lia.
  - unfold append_user. rewrite <- app_comm_cons. by apply trim_long.
Qed.

Lemma trim_keeps_most_recent_witness :
  ∃ dropped kept,
    rounds [entry System system_prompt] (replicate 3 ("Hi", "Yes."))
      ++ [entry User "More"]
      = entry System system_prompt :: dropped ++ kept
    ∧ dropped ≠ []
    ∧ (Z.of_nat (length kept) = 2 * MAX_HISTORY)%Z
    ∧ append_user
        (rounds [entry System system_prompt] (replicate 3 ("Hi", "Yes.")))
        "More"
      = entry System system_prompt :: kept.
Proof.
  apply (trim_keeps_most_recent
           (Server {[ "s" := rounds [entry System system_prompt]
                                (replicate 3 ("Hi", "Yes.")) ]}
                   {[ "s" := Receiving ]}) "s").
  - apply single_session_reachable.
  - apply lookup_singleton_eq.
  - by vm_compute.
Defined.

(** ** The connection handler *)

Section HandlerFacts.

Import Handler.

Implicit Types (w : world) (env : turn_env) (h : list string).

Lemma bind_ok {A B} (m : M A) (f : A → M B) w a w' :
  m w = (Ok a, w') → (m ≫= f) w = f a w'.
Proof. intros H. unfold mbind, M_bind. by rewrite H. Qed.

Lemma bind_raised {A B} (m : M A) (f : A → M B) w e w' :
  m w = (Raised e, w') → (m ≫= f) w = (Raised e, w').
Proof. intros H. unfold mbind, M_bind. by rewrite H. Qed.

Lemma run_get session_id w h :
  chat_histories w !! session_id = Some h →
  get_history session_id w = (Ok h, w).
Proof. intros H. unfold get_history. by rewrite H. Qed.

Lemma run_append session_id x w h :
  chat_histories w !! session_id = Some h →
  append_history session_id x w
  = (Ok (), World (<[session_id := h ++ [x]]> (chat_histories w)) (trace w)).
Proof.
  intros H. unfold append_history.
  by rewrite (bind_ok _ _ _ _ _ (run_get _ _ _ H)).
Qed.

(** Lines 154-155 *)
Lemma run_trim session_id w h :
  chat_histories w !! session_id = Some h →
  (if too_long h
   then h' ← get_history session_id; set_history session_id (keep_recent h')
   else mret ()) w
  = (Ok (), World (<[session_id := trim h]> (chat_histories w)) (trace w)).
Proof.
  intros H. unfold trim. destruct (too_long h).
  - by rewrite (bind_ok _ _ _ _ _ (run_get _ _ _ H)).
  - rewrite insert_id by done. by destruct w.
Qed.

Lemma run_emit ev w :
  emit ev w = (Ok (), World (chat_histories w) (trace w ++ [ev])).
Proof. reflexivity. Qed.

Lemma run_receive env w :
  receive_text env w
  = match on_receive env with
    | inl e => (Raised e, w)
    | inr text => (Ok text, w)
    end.
Proof. unfold receive_text. by destruct (on_receive env). Qed.

Lemma run_generate env context w :
  generate env context w
  = let w' := World (chat_histories w) (trace w ++ [Generated context]) in
    match on_generate env context with
    | inl message => (Raised (Error message), w')
    | inr response => (Ok response, w')
    end.
Proof.
  unfold generate. rewrite (bind_ok _ _ _ _ _ (run_emit _ _)).
  by destruct (on_generate env context).
Qed.

Lemma run_log_chat env session_id user_message ai_response w :
  log_chat env session_id user_message ai_response w
  = let w' := World (chat_histories w)
                (trace w ++ [LogChat session_id user_message ai_response]) in
    match on_log env with
    | Some message => (Raised (Error message), w')
    | None => (Ok (), w')
    end.
Proof.
  unfold log_chat. rewrite (bind_ok _ _ _ _ _ (run_emit _ _)).
  by destruct (on_log env).
Qed.

Lemma run_send_text outcome text w :
  send_text outcome text w
  = match outcome with
    | Some e => (Raised e, w)
    | None => (Ok (), World (chat_histories w) (trace w ++ [Sent text]))
    end.
Proof. by destruct outcome. Qed.

(** One round of the loop, case by case.  The history is appended to and
    trimmed, the context rendered and the model called; then the reply is
    appended, logged, printed and sent, as far as the collaborators allow. *)
Lemma turn_run session_id env w h user_input :
  chat_histories w !! session_id = Some h →
  on_receive env = inr user_input →
  turn session_id env w =
    let h1 := append_user h user_input in
    let context := render h1 in
    let tr1 := trace w ++ [Printed (UserLine session_id user_input);
                           Generated context] in
    match on_generate env context with
    | inl message =>
        (Raised (Error message),
         World (<[session_id := h1]> (chat_histories w)) tr1)
    | inr response =>
        let store2 :=
          <[session_id := append_assistant h1 response]> (chat_histories w) in
        let tr2 := tr1 ++ [LogChat session_id user_input response] in
        match on_log env with
        | Some message => (Raised (Error message), World store2 tr2)
        | None =>
            let tr3 := tr2 ++ [Printed (AssistantLine session_id response)] in
            match on_send_reply env with
            | Some e => (Raised e, World store2 tr3)
            | None =>
                match on_send_end env with
                | Some e => (Raised e, World store2 (tr3 ++ [Sent response]))
                | None =>
                    (Ok (), World store2
                              (tr3 ++ [Sent response; Sent "[END]"; GcCollected]))
                end
            end
        end
    end.
Proof.
  intros Hl Hrecv. unfold turn.
  rewrite (bind_ok _ _ w user_input w) by (by rewrite run_receive, Hrecv).
  rewrite (bind_ok _ _ _ _ _ (run_emit _ _)).
  rewrite (bind_ok _ _ _ _ _
             (run_append session_id _ (World (chat_histories w) _) h Hl)).
  cbn [chat_histories trace].
  rewrite (bind_ok _ _ _ _ _ (run_get _ _ _ (lookup_insert_eq _ _ _))).
  rewrite (bind_ok _ _ _ _ _ (run_trim _ _ _ (lookup_insert_eq _ _ _))).
  cbn [chat_histories trace]. rewrite insert_insert_eq.
  rewrite (bind_ok _ _ _ _ _ (run_get _ _ _ (lookup_insert_eq _ _ _))).
  fold (append_user h user_input). fold (render (append_user h user_input)).
  cbv zeta.
  pose proof (run_generate env (render (append_user h user_input))) as Hgen.
  destruct (on_generate env _) as [message | response].
  { rewrite (bind_raised _ _ _ _ _ (Hgen _)). cbn [chat_histories trace].
    by rewrite <- app_assoc. }
  rewrite (bind_ok _ _ _ _ _ (Hgen _)). cbn [chat_histories trace].
  rewrite (bind_ok _ _ _ _ _ (run_append _ _ _ _ (lookup_insert_eq _ _ _))).
  cbn [chat_histories trace]. rewrite insert_insert_eq.
  fold (append_assistant (append_user h user_input) response).
  pose proof (run_log_chat env session_id user_input response) as Hlog.
  destruct (on_log env) as [message |].
  { rewrite (bind_raised _ _ _ _ _ (Hlog _)). cbn [chat_histories trace].
    by rewrite <- !app_assoc. }
  rewrite (bind_ok _ _ _ _ _ (Hlog _)). cbn [chat_histories trace].
  rewrite (bind_ok _ _ _ _ _ (run_emit _ _)). cbn [chat_histories trace].
  pose proof (run_send_text (on_send_reply env) response) as Hsend1.
  destruct (on_send_reply env) as [e |].
  { rewrite (bind_raised _ _ _ _ _ (Hsend1 _)). by rewrite <- !app_assoc. }
  rewrite (bind_ok _ _ _ _ _ (Hsend1 _)). cbn [chat_histories trace].
  pose proof (run_send_text (on_send_end env) "[END]") as Hsend2.
  destruct (on_send_end env) as [e |].
  { rewrite (bind_raised _ _ _ _ _ (Hsend2 _)). by rewrite <- !app_assoc. }
  rewrite (bind_ok _ _ _ _ _ (Hsend2 _)). cbn [chat_histories trace].
  rewrite run_emit. cbn [chat_histories trace].
  by rewrite <- !app_assoc.
Qed.

(** A round in which the model answers changes [chat_histories] by the two
    steps of the server for that session: the append of the User turn with
    its trim, and the append of the Assistant turn. *)
Lemma turn_takes_server_steps session_id env w h user_input response phs :
  chat_histories w !! session_id = Some h →
  on_receive env = inr user_input →
  on_generate env (render (append_user h user_input)) = inr response →
  phs !! session_id = Some Receiving →
  ∃ store1,
    server_step (Server (chat_histories w) phs)
                (Server store1 (<[session_id := Generating]> phs))
    ∧ store1 !! session_id = Some (append_user h user_input)
    ∧ server_step (Server store1 (<[session_id := Generating]> phs))
                  (Server (chat_histories (turn session_id env w).2) phs).
Proof.
  intros Hl Hrecv Hgen Hph.
  exists (<[session_id := append_user h user_input]> (chat_histories w)).
  split; [by apply (step_user (Server _ _)) |].
  split; [apply lookup_insert_eq |].
  assert (chat_histories (turn session_id env w).2
          = <[session_id := append_assistant (append_user h user_input) response]>
              (<[session_id := append_user h user_input]> (chat_histories w)))
    as ->.
  { rewrite (turn_run _ _ _ _ _ Hl Hrecv). cbv zeta. rewrite Hgen.
    rewrite insert_insert_eq.
    by destruct (on_log env), (on_send_reply env), (on_send_end env). }
  pose proof (step_assistant
    (Server (<[session_id := append_user h user_input]> (chat_histories w))
            (<[session_id := Generating]> phs))
    session_id (append_user h user_input) response
    (lookup_insert_eq _ _ _) (lookup_insert_eq _ _ _)) as Hstep.
  simpl in Hstep. rewrite (insert_insert_eq phs) in Hstep.
  rewrite (insert_id phs session_id Receiving Hph) in Hstep.
  exact Hstep.
Qed.

End HandlerFacts.

Lemma trim_turn_lines (turns : list Turn) :
  ∃ turns', trim (turn_line <$> turns) = turn_line <$> turns'.
Proof.
  destruct (trim_cases (turn_line <$> turns))
    as [[_ ->] | (e0 & rest & Heq & _ & ->)]; [by eexists |].
  destruct turns as [| t0 turns]; [done |].
  injection Heq as <- <-.
  exists (t0 :: drop (length (turn_line <$> turns) - 6) turns).
  by rewrite fmap_cons, fmap_drop.
Qed.

Lemma well_formed_turn_lines h :
  well_formed h → ∃ turns, h = turn_line <$> turns.
Proof.
  intros (rest & -> & Hrest).
  assert (∃ turns, rest = turn_line <$> turns) as (turns & ->).
  { induction Hrest as [| e rest (text & He) _ (turns & ->)]; [by exists [] |].
    destruct He as [-> | ->].
    - by exists (MkTurn User text :: turns).
    - by exists (MkTurn Assistant text :: turns). }
  by exists (MkTurn System system_prompt :: turns).
Qed.

Lemma generated_app tr1 tr2 :
  Handler.generated (tr1 ++ tr2) = Handler.generated tr1 ++ Handler.generated tr2.
Proof. apply omap_app. Qed.

Lemma sent_app tr1 tr2 :
  Handler.sent (tr1 ++ tr2) = Handler.sent tr1 ++ Handler.sent tr2.
Proof. apply omap_app. Qed.

(** Line 157 on a history of turns gives the text of the specification. *)
Lemma render_spec_context (turns : list Turn) :
  turns ≠ [] → render (turn_line <$> turns) = spec_context turns.
Proof.
  assert (∀ s t u : string, (s +:+ t) +:+ u = s +:+ t +:+ u) as Hassoc.
  { intros s t u. induction s as [| c s IH]; [done |].
    change ((String c s +:+ t) +:+ u) with (String c ((s +:+ t) +:+ u)).
    by rewrite IH. }
  assert (∀ t : Turn, ∀ rest : string,
            turn_line t +:+ nl +:+ rest
            = match turn_role t with
              | System => "System: "
              | User => "User: "
              | Assistant => "Assistant: "
              end +:+ turn_text t +:+ String "010"%char rest) as Hline.
  { intros [r text] rest. unfold turn_line, entry. cbn [turn_role turn_text].
    rewrite !Hassoc. by destruct r. }
  intros Hne. unfold render.
  induction turns as [| t turns IH]; [done |].
  destruct turns as [| t' turns].
  - cbn [fmap list_fmap Str.join spec_context]. apply Hline.
  - specialize (IH ltac:(done)).
    change (Str.join nl (turn_line <$> t :: t' :: turns))
      with (turn_line t +:+ nl +:+ Str.join nl (turn_line <$> t' :: turns)).
    rewrite !Hassoc, IH. apply Hline.
Qed.

(** C7. In a round of the loop the model is called once, and the context
    it receives is the text that the specification describes for the turns
    of the history, as it is after the User turn is appended: every turn
    as a line "<Role>: <text>", the lines joined by newlines, and a newline
    and "Assistant:" at the end.  The text is written out by
    [spec_context], not by the functions of the handler. *)
Theorem context_passed_to_model session_id env w turns user_input :
  Handler.chat_histories w !! session_id = Some (turn_line <$> turns) →
  Handler.on_receive env = inr user_input →
  (∃ turns',
     append_user (turn_line <$> turns) user_input = turn_line <$> turns')
  ∧ ∀ turns',
      append_user (turn_line <$> turns) user_input = turn_line <$> turns' →
      Handler.generated (Handler.trace (Handler.turn session_id env w).2)
      = Handler.generated (Handler.trace w) ++ [spec_context turns'].
Proof.
  intros Hl Hrecv. split.
  { destruct (trim_turn_lines (turns ++ [MkTurn User user_input]))
      as (turns' & Htrim).
    rewrite fmap_app in Htrim. by exists turns'. }
  intros turns' Htrim.
  assert (turns' ≠ []) as Hne.
  { intros ->. apply (f_equal head) in Htrim.
    unfold append_user in Htrim. rewrite trim_head in Htrim.
    by destruct (turn_line <$> turns). }
  rewrite (turn_run _ _ _ _ _ Hl Hrecv). cbv zeta.
  rewrite Htrim, (render_spec_context turns' Hne).
  destruct (Handler.on_generate env _) as [message | response]; simpl.
  { by rewrite generated_app. }
  destruct (Handler.on_log env), (Handler.on_send_reply env),
    (Handler.on_send_end env); simpl;
    rewrite !generated_app; simpl; by rewrite !app_nil_r.
Qed.

Lemma context_passed_to_model_witness :
  Handler.generated (Handler.trace (Handler.turn "s"
    (Handler.TurnEnv (inr "What is 2+2?") (λ _, inr "4.") None None None)
    (Handler.World
       {[ "s" := [entry System system_prompt; "User: Hi"; "Assistant: Hello."] ]}
       [])).2)
  = [ "System: You are a helpful AI assistant. Answer the user's question concisely and accurately. Do not explain your reasoning or thought process. Just provide the answer in 1-3 complete sentences"
      +:+ String "010"%char (String "010"%char (String "010"%char
      ("User: Hi" +:+ String "010"%char
      ("Assistant: Hello." +:+ String "010"%char
      ("User: What is 2+2?" +:+ String "010"%char "Assistant:"))))) ].
Proof.
  exact (proj2
    (context_passed_to_model "s"
       (Handler.TurnEnv (inr "What is 2+2?") (λ _, inr "4.") None None None)
       (Handler.World
          {[ "s" := [entry System system_prompt; "User: Hi";
                     "Assistant: Hello."] ]} [])
       [MkTurn System system_prompt; MkTurn User "Hi";
        MkTurn Assistant "Hello."]
       "What is 2+2?" (lookup_singleton_eq _ _) eq_refl)
    [MkTurn System system_prompt; MkTurn User "Hi";
     MkTurn Assistant "Hello."; MkTurn User "What is 2+2?"]
    eq_refl).
Defined.

(** C2, as the program behaves: [log_chat] is awaited inside [try] before
    the reply is sent, so when the write of the log fails the round stops
    there.  Nothing of that round is sent to the client, neither the reply
    nor "[END]" nor a text about the error; the error is printed, the
    socket is closed, the session is removed from [chat_histories] and the
    handler returns. *)
Theorem log_failure_ends_session
    session_id env envs w h user_input response message :
  Handler.chat_histories w !! session_id = Some h →
  Handler.on_receive env = inr user_input →
  Handler.on_generate env (render (append_user h user_input)) = inr response →
  Handler.on_log env = Some message →
  Handler.guarded_loop session_id (env :: envs) w =
    (Handler.Ok Handler.Closed,
     Handler.World
       (delete session_id (Handler.chat_histories w))
       (Handler.trace w ++
          [Handler.Printed (Handler.UserLine session_id user_input);
           Handler.Generated (render (append_user h user_input));
           Handler.LogChat session_id user_input response;
           Handler.Printed (Handler.ErrorLine session_id (Handler.Error message));
           Handler.SocketClosed;
           Handler.GcCollected]))
  ∧ Handler.sent (Handler.trace
        (Handler.guarded_loop session_id (env :: envs) w).2)
    = Handler.sent (Handler.trace w).
Proof.
  intros Hl Hrecv Hgen Hlog.
  match goal with |- ?A ∧ _ => assert A as Hrun end.
  { unfold Handler.guarded_loop. cbn [Handler.serve].
    unfold mbind at 1. unfold Handler.M_bind at 1.
    rewrite (turn_run _ _ _ _ _ Hl Hrecv). cbv zeta.
    rewrite Hgen, Hlog.
    unfold Handler.on_exception, Handler.emit, Handler.pop_history,
      mbind, Handler.M_bind. simpl.
    rewrite delete_insert_eq, <- !app_assoc. simpl. reflexivity. }
  split; [exact Hrun |].
  rewrite Hrun. simpl. rewrite sent_app. simpl. apply app_nil_r.
Qed.

Lemma log_failure_ends_session_witness :
  Handler.sent (Handler.trace
      (Handler.guarded_loop "s"
         [Handler.TurnEnv (inr "Hi") (λ _, inr "Yes.") (Some "connection lost")
            None None]
         (Handler.World {[ "s" := [entry System system_prompt] ]} [])).2)
  = Handler.sent [].
Proof.
  apply (proj2 (log_failure_ends_session "s"
           (Handler.TurnEnv (inr "Hi") (λ _, inr "Yes.") (Some "connection lost")
              None None)
           [] (Handler.World {[ "s" := [entry System system_prompt] ]} [])
           [entry System system_prompt] "Hi" "Yes." "connection lost"
           (lookup_singleton_eq _ _) eq_refl eq_refl eq_refl)).
Defined.

(** C2 as stated fails: with a failing write of the log, a connection
    whose model answers "Yes." gets no text at all, and afterwards the
    handler has returned and the session is gone. *)
Lemma log_failure_reply_not_sent :
  let env := Handler.TurnEnv (inr "Hi") (λ _, inr "Yes.")
               (Some "connection lost") None None in
  let run := Handler.websocket_endpoint "s" [env] (Handler.World ∅ []) in
  run.1 = Handler.Ok Handler.Closed
  ∧ Handler.sent (Handler.trace run.2) = []
  ∧ Handler.chat_histories run.2 !! "s" = None
  ∧ last (Handler.trace run.2) = Some Handler.GcCollected
  ∧ Handler.trace run.2 !! 6 = Some Handler.SocketClosed.
Proof. vm_compute. done. Qed.

(** ** Removal of the discourse markers *)

Section Thinking.

Implicit Types (s t l pre : string) (p : option ascii) (k : Re.cont).

Lemma str_app_cons c s t : String c s +:+ t = String c (s +:+ t).
Proof. reflexivity. Qed.

Lemma str_app_nil_l s : "" +:+ s = s.
Proof. reflexivity. Qed.

Lemma str_app_assoc s t u : (s +:+ t) +:+ u = s +:+ t +:+ u.
Proof.
  induction s as [| c s IH]; [done |]. rewrite !str_app_cons. by rewrite IH.
Qed.

Lemma str_length_app s t : Str.length (s +:+ t) = Str.length s + Str.length t.
Proof.
  induction s as [| c s IH]; [done |]. rewrite str_app_cons. cbn. by rewrite IH.
Qed.

Lemma last_char_app s t p :
  Str.last_char (s +:+ t) p = Str.last_char t (Str.last_char s p).
Proof.
  revert p. induction s as [| c s IH]; intros p; [done |].
  rewrite str_app_cons. cbn. apply IH.
Qed.

Lemma rest_of_lines_app s t :
  one_line s = true → rest_of_lines (s +:+ t) = rest_of_lines t.
Proof.
  induction s as [| c s IH]; [done |]. rewrite str_app_cons. cbn.
  intros [Hc Hs]%andb_prop. apply negb_true_iff in Hc. rewrite Hc. by apply IH.
Qed.

Lemma rest_of_lines_nl t : rest_of_lines (nl +:+ t) = nl +:+ t.
Proof. reflexivity. Qed.

(** *** Characters under [(?i)] *)

Lemma lower_is_word c : Char.is_word (Char.lower c) = Char.is_word c.
Proof. by destruct c as [[] [] [] [] [] [] [] []]. Qed.

Lemma lower_newline c : Char.lower c = Char.newline → c = Char.newline.
Proof. by destruct c as [[] [] [] [] [] [] [] []]. Qed.

Lemma eqb_icase_lower a c :
  Char.eqb_icase a c = true → Char.lower a = Char.lower c.
Proof. unfold Char.eqb_icase. apply Ascii.eqb_eq. Qed.

Lemma eqb_icase_is_word a c :
  Char.eqb_icase a c = true → Char.is_word c = Char.is_word a.
Proof.
  intros H%eqb_icase_lower.
  by rewrite <- (lower_is_word c), <- H, lower_is_word.
Qed.

Lemma eqb_icase_newline a c :
  Char.eqb_icase a c = true →
  Ascii.eqb c Char.newline = Ascii.eqb a Char.newline.
Proof.
  intros H%eqb_icase_lower.
  destruct (Ascii.eqb_spec c Char.newline) as [-> | Hc],
           (Ascii.eqb_spec a Char.newline) as [-> | Ha]; try done.
  - exfalso. apply Ha. by apply lower_newline.
  - exfalso. apply Hc. by apply lower_newline.
Qed.

Lemma same_icase_one_line l s :
  same_icase l s = true → one_line s = one_line l.
Proof.
  revert s. induction l as [| a l IH]; intros [| c s]; try done. cbn.
  intros [Hc Hs]%andb_prop. by rewrite (eqb_icase_newline _ _ Hc), (IH _ Hs).
Qed.

Lemma same_icase_first l s :
  same_icase l s = true →
  Re.is_word_opt (Str.first_char s) = Re.is_word_opt (Str.first_char l).
Proof.
  destruct l as [| a l], s as [| c s]; try done. cbn.
  intros [Hc _]%andb_prop. by apply eqb_icase_is_word.
Qed.

Lemma same_icase_last l s p q :
  same_icase l s = true → Re.is_word_opt p = Re.is_word_opt q →
  Re.is_word_opt (Str.last_char s p) = Re.is_word_opt (Str.last_char l q).
Proof.
  revert s p q. induction l as [| a l IH]; intros [| c s] p q; try done. cbn.
  intros [Hc Hs]%andb_prop _. apply IH; [done |]. cbn.
  by apply eqb_icase_is_word.
Qed.

(** *** The pattern of the markers *)

Lemma star_dot_line p u :
  Re.star_greedy Re.Dot p u (λ _ t, Some t) = Some (rest_of_lines u).
Proof.
  revert p. induction u as [| c u IH]; intros p; [done |]. cbn.
  destruct (Ascii.eqb c Char.newline); cbn; [done |]. by rewrite IH.
Qed.

Lemma to_end_of_line_eq p u :
  to_end_of_line p u
  = if Re.at_word_boundary p u then Some (rest_of_lines u) else None.
Proof.
  unfold to_end_of_line. cbn [Re.rmatch].
  destruct (Re.at_word_boundary p u); [apply star_dot_line | done].
Qed.

Lemma lit_line l p s r :
  one_line l = true →
  Re.lit_match true l p s to_end_of_line = Some r → r = rest_of_lines s.
Proof.
  revert p s. induction l as [| a l IH]; intros p s Hl Hm.
  - cbn [Re.lit_match] in Hm. rewrite to_end_of_line_eq in Hm.
    destruct (Re.at_word_boundary p s); congruence.
  - cbn in Hl. apply andb_prop in Hl as [Ha Hl].
    destruct s as [| c s]; [done |]. cbn [Re.lit_match] in Hm.
    destruct (Char.eqb_icase a c) eqn:Hac; [| done].
    cbn. rewrite (eqb_icase_newline _ _ Hac).
    apply negb_true_iff in Ha. rewrite Ha. by eapply IH.
Qed.

Lemma alternatives_cons m ms :
  ms ≠ [] → alternatives (m :: ms) = Re.Alt (Re.Lit true m) (alternatives ms).
Proof. by destruct ms. Qed.

Lemma alternatives_line ms p s r :
  Forall (λ m, one_line m = true) ms →
  Re.rmatch (alternatives ms) p s to_end_of_line = Some r →
  r = rest_of_lines s.
Proof.
  induction 1 as [| m ms Hm Hms IH]; intros Hr.
  - by apply (lit_line "" p s).
  - destruct ms as [| m' ms']; [by apply (lit_line m p s) |].
    rewrite alternatives_cons in Hr by done. cbn [Re.rmatch] in Hr.
    destruct (Re.lit_match true m p s to_end_of_line) as [r' |] eqn:Hlit.
    + injection Hr as <-. by apply (lit_line m p s).
    + by apply IH.
Qed.

Lemma lit_match_same l mk t p k :
  same_icase l mk = true →
  Re.lit_match true l p (mk +:+ t) k = k (Str.last_char mk p) t.
Proof.
  revert mk p. induction l as [| a l IH]; intros [| c mk] p Hs; try done.
  cbn in Hs. apply andb_prop in Hs as [Hac Hs].
  rewrite str_app_cons. cbn [Re.lit_match Str.last_char]. rewrite Hac.
  by apply IH.
Qed.

Lemma alternatives_some ms m p s k :
  m ∈ ms → is_Some (Re.lit_match true m p s k) →
  is_Some (Re.rmatch (alternatives ms) p s k).
Proof.
  induction ms as [| m1 ms IH]; intros Hin Hm; [by apply elem_of_nil in Hin |].
  destruct ms as [| m2 ms].
  - apply list_elem_of_singleton in Hin as ->. exact Hm.
  - rewrite alternatives_cons by done. cbn [Re.rmatch].
    destruct (Re.lit_match true m1 p s k) as [r |] eqn:Hlit; [by eexists |].
    apply elem_of_cons in Hin as [-> | Hin].
    + rewrite Hlit in Hm. by destruct Hm.
    + by apply IH.
Qed.

Lemma thinking_match_at_eq p s :
  Re.match_at thinking_re p s
  = if Re.at_word_boundary p s
    then Re.rmatch (alternatives thinking_markers) p s to_end_of_line
    else None.
Proof. reflexivity. Qed.

(** Every marker is one line that starts and ends with a letter. *)
Lemma thinking_markers_shape :
  Forall (λ m, one_line m = true
               ∧ Re.is_word_opt (Str.first_char m) = true
               ∧ Re.is_word_opt (Str.last_char m None) = true)
    thinking_markers.
Proof. repeat constructor. Qed.

Lemma thinking_markers_one_line :
  Forall (λ m, one_line m = true) thinking_markers.
Proof. eapply Forall_impl; [apply thinking_markers_shape | by intros ? (? & _)]. Qed.

Lemma first_char_app mk t :
  mk ≠ "" → Str.first_char (mk +:+ t) = Str.first_char mk.
Proof. by destruct mk. Qed.

(** At a marker that stands between two non-word characters the pattern
    matches, up to the end of the line. *)
Lemma thinking_match_marker mk t p :
  is_marker mk →
  Re.is_word_opt p = false →
  Re.is_word_opt (Str.first_char t) = false →
  Re.match_at thinking_re p (mk +:+ t) = Some (rest_of_lines t).
Proof.
  intros (m & Hin & Hsame) Hp Ht.
  pose proof thinking_markers_shape as Hshape.
  rewrite Forall_forall in Hshape.
  destruct (Hshape m Hin) as (Hline & Hfirst & Hlast).
  assert (mk ≠ "") as Hne.
  { intros ->. destruct m; [done | done]. }
  rewrite thinking_match_at_eq.
  assert (Re.at_word_boundary p (mk +:+ t) = true) as ->.
  { unfold Re.at_word_boundary.
    rewrite first_char_app, Hp, (same_icase_first _ _ Hsame), Hfirst by done.
    done. }
  assert (Re.lit_match true m p (mk +:+ t) to_end_of_line
          = Some (rest_of_lines t)) as Hlit.
  { rewrite (lit_match_same _ _ _ _ _ Hsame), to_end_of_line_eq.
    unfold Re.at_word_boundary.
    rewrite (same_icase_last m mk p None Hsame), Hlast, Ht by done.
    done. }
  destruct (alternatives_some thinking_markers m p (mk +:+ t) to_end_of_line)
    as [r Hr]; [done | by rewrite Hlit |].
  rewrite Hr. f_equal.
  rewrite (alternatives_line _ _ _ _ thinking_markers_one_line Hr).
  apply rest_of_lines_app. by rewrite (same_icase_one_line _ _ Hsame).
Qed.

(** The match depends on the character before only through [\b]. *)
Lemma thinking_match_prev p q s :
  Re.is_word_opt p = Re.is_word_opt q →
  Re.match_at thinking_re p s = Re.match_at thinking_re q s.
Proof.
  intros Hpq. rewrite !thinking_match_at_eq. unfold Re.at_word_boundary.
  rewrite Hpq. destruct (xorb _ _); [| done].
  by destruct s.
Qed.

Lemma thinking_no_match_at_end p : Re.match_at thinking_re p "" = None.
Proof.
  rewrite thinking_match_at_eq.
  destruct (Re.at_word_boundary p _); reflexivity.
Qed.

Lemma thinking_no_match_at_newline p t :
  Re.match_at thinking_re p (String Char.newline t) = None.
Proof.
  rewrite thinking_match_at_eq.
  destruct (Re.at_word_boundary p _); reflexivity.
Qed.

(** *** [re.sub] around a match *)

Lemma sub_go_prev repl skip p q s :
  Re.is_word_opt p = Re.is_word_opt q →
  Re.sub_go thinking_re repl skip p s = Re.sub_go thinking_re repl skip q s.
Proof.
  intros Hpq. destruct s as [| c s], skip as [| n]; cbn [Re.sub_go];
    unfold Re.match_len; rewrite ?(thinking_match_prev p q) by done; done.
Qed.

(** Where no match starts, the text is copied. *)
Lemma sub_go_copy r repl p pre s :
  no_match_inside r p pre s = true →
  Re.sub_go r repl 0 p (pre +:+ s)
  = pre +:+ Re.sub_go r repl 0 (Str.last_char pre p) s.
Proof.
  revert p. induction pre as [| c pre IH]; intros p Hno; [done |].
  cbn [no_match_inside] in Hno.
  destruct (Re.match_at r p (String c pre +:+ s)) eqn:Hm; [done |].
  rewrite !str_app_cons in *. cbn [Re.sub_go Str.last_char].
  unfold Re.match_len. rewrite Hm. by rewrite IH.
Qed.

(** The characters of a match are passed over. *)
Lemma sub_go_skip r repl p a b :
  Re.sub_go r repl (Str.length a) p (a +:+ b)
  = Re.sub_go r repl 0 (Str.last_char a p) b.
Proof.
  revert p. induction a as [| c a IH]; intros p; [done |].
  rewrite str_app_cons. cbn [Str.length Re.sub_go Str.last_char]. apply IH.
Qed.

Lemma sub_go_match r repl p a b :
  a ≠ "" → Re.match_at r p (a +:+ b) = Some b →
  Re.sub_go r repl 0 p (a +:+ b)
  = repl +:+ Re.sub_go r repl 0 (Str.last_char a p) b.
Proof.
  intros Ha Hm. destruct a as [| c a]; [done |].
  assert (Re.match_len r p (String c a +:+ b) = Some (S (Str.length a)))
    as Hlen.
  { unfold Re.match_len. rewrite Hm. f_equal.
    rewrite str_length_app. cbn. lia. }
  rewrite str_app_cons in *. cbn [Re.sub_go]. rewrite Hlen.
  by rewrite sub_go_skip.
Qed.

Lemma one_line_rest_nl post rest :
  one_line post = true →
  rest_of_lines (post +:+ nl +:+ rest) = nl +:+ rest.
Proof. intros H. by rewrite rest_of_lines_app. Qed.

Lemma one_line_rest_end post :
  one_line post = true → rest_of_lines post = "".
Proof.
  induction post as [| c post IH]; [done |]. cbn.
  intros [Hc Hs]%andb_prop. apply negb_true_iff in Hc. rewrite Hc. by apply IH.
Qed.

Lemma str_app_nil_r s : s +:+ "" = s.
Proof. induction s as [| c s IH]; [done |]. by rewrite str_app_cons, IH. Qed.

Lemma first_char_app_nl post t :
  Re.is_word_opt (Str.first_char post) = false →
  Re.is_word_opt (Str.first_char (post +:+ nl +:+ t)) = false.
Proof. by destruct post. Qed.

Lemma is_marker_nonempty mk : is_marker mk → mk ≠ "".
Proof.
  intros (m & Hin & Hsame) ->.
  pose proof thinking_markers_shape as Hshape.
  rewrite Forall_forall in Hshape.
  destruct (Hshape m Hin) as (_ & Hfirst & _).
  by destruct m.
Qed.

End Thinking.

(** C4, as the program behaves, for the substitution of lines 117-120
    ([sub_thinking]: the [re.sub], before the [.strip()] of line 121 and
    the later steps): at the first place of the text where the pattern
    matches, a marker between two non-word characters, the substitution
    deletes the marker and everything after it up to the end of its line;
    the newline and the following lines stay in the result of the
    substitution, which treats them in the same way.  What the later
    steps make of the text that stays is not stated here. *)
Theorem thinking_removed_to_end_of_line pre mk post :
  is_marker mk →
  Re.is_word_opt (Str.last_char pre None) = false →
  Re.is_word_opt (Str.first_char post) = false →
  one_line post = true →
  (∀ rest,
     no_match_inside thinking_re None pre (mk +:+ post +:+ nl +:+ rest) = true →
     sub_thinking (pre +:+ mk +:+ post +:+ nl +:+ rest)
     = pre +:+ nl +:+ sub_thinking rest)
  ∧ (no_match_inside thinking_re None pre (mk +:+ post) = true →
     sub_thinking (pre +:+ mk +:+ post) = pre).
Proof.
  intros Hmk Hpre Hpost Hline.
  pose proof (is_marker_nonempty _ Hmk) as Hne.
  split.
  - intros rest Hno. unfold sub_thinking, Re.sub.
    rewrite (sub_go_copy _ _ _ _ _ Hno).
    pose proof (thinking_match_marker mk (post +:+ nl +:+ rest) _ Hmk Hpre
                  (first_char_app_nl _ _ Hpost)) as Hm.
    rewrite one_line_rest_nl in Hm by done.
    rewrite <- (str_app_assoc mk post) in Hm.
    rewrite <- (str_app_assoc mk post).
    rewrite (sub_go_match thinking_re "" _ (mk +:+ post) (nl +:+ rest));
      [| by destruct mk | exact Hm].
    rewrite str_app_nil_l. f_equal.
    change (nl +:+ rest) with (String Char.newline rest).
    cbn [Re.sub_go]. unfold Re.match_len.
    rewrite thinking_no_match_at_newline.
    change (String Char.newline ?x) with (nl +:+ x). f_equal.
    by apply sub_go_prev.
  - intros Hno. unfold sub_thinking, Re.sub.
    rewrite (sub_go_copy _ _ _ _ _ Hno).
    pose proof (thinking_match_marker mk post _ Hmk Hpre Hpost) as Hm.
    rewrite one_line_rest_end in Hm by done.
    rewrite <- (str_app_nil_r (mk +:+ post)) in Hm |- *.
    rewrite (sub_go_match thinking_re "" _ (mk +:+ post) "");
      [| by destruct mk | exact Hm].
    rewrite str_app_nil_l. cbn [Re.sub_go]. unfold Re.match_len.
    rewrite thinking_no_match_at_end. apply str_app_nil_r.
Qed.

Lemma thinking_removed_to_end_of_line_witness :
  sub_thinking ("Hello. " +:+ "WAIT" +:+ ", no" +:+ nl +:+ "World")
  = "Hello. " +:+ nl +:+ sub_thinking "World".
Proof.
  assert (is_marker "WAIT") as Hmk.
  { exists "Wait". split; [repeat constructor | reflexivity]. }
  apply (proj1 (thinking_removed_to_end_of_line "Hello. " "WAIT" ", no"
                  Hmk eq_refl eq_refl eq_refl) "World").
  reflexivity.
Defined.

(** C4 as stated fails: the text on the line after the marker is kept. *)
Lemma thinking_keeps_next_lines :
  sanitize ("Hello" +:+ nl +:+ "Wait no" +:+ nl +:+ "World") = "Hello  World."
  ∧ sub_thinking ("Hello" +:+ nl +:+ "Wait no" +:+ nl +:+ "World")
    = "Hello" +:+ nl +:+ nl +:+ "World".
Proof. split; reflexivity. Qed.

(** ** The lock around the model *)

Section ModelLockFacts.

Import ModelLock.

Implicit Types (st : state) (l : list pc) (p q : pc).

Lemma replay_snoc o calls e :
  replay o (calls ++ [e]) = replay o calls ≫= λ o', replay o' [e].
Proof.
  revert o. induction calls as [| e' calls IH]; intros o.
  - cbn. by destruct (replay o [e]).
  - destruct e' as [i c | i], o as [j |]; cbn; try done.
    destruct (decide (i = j)); [apply IH | done].
Qed.

Lemma count_calls_snoc calls e :
  count_calls (calls ++ [e])
  = count_calls calls + (if is_start e then 1 else 0).
Proof.
  unfold count_calls. rewrite filter_app, length_app. f_equal.
  by destruct e.
Qed.

Lemma insert_split l i p q :
  l !! i = Some p →
  ∃ l1 l2, l = l1 ++ p :: l2 ∧ <[i := q]> l = l1 ++ q :: l2.
Proof.
  intros Hl. exists (take i l), (drop (S i) l). split.
  - by rewrite take_drop_middle.
  - apply insert_take_drop. by eapply lookup_lt_Some.
Qed.

Lemma started_cons p l :
  length (filter has_started (p :: l))
  = (if has_started p then 1 else 0) + length (filter has_started l).
Proof.
  rewrite filter_cons. destruct (has_started p) eqn:Hp.
  - rewrite decide_True by exact I. reflexivity.
  - rewrite decide_False by (intros []). reflexivity.
Qed.

Lemma started_insert l i p q :
  l !! i = Some p →
  length (filter has_started (<[i := q]> l)) + (if has_started p then 1 else 0)
  = length (filter has_started l) + (if has_started q then 1 else 0).
Proof.
  intros (l1 & l2 & -> & ->)%(insert_split _ _ _ q).
  rewrite !filter_app, !length_app, !started_cons.
  destruct (has_started p), (has_started q); lia.
Qed.

Lemma remaining_insert l i p q :
  l !! i = Some p →
  sum_list (remaining <$> <[i := q]> l) + remaining p
  = sum_list (remaining <$> l) + remaining q.
Proof.
  intros (l1 & l2 & -> & ->)%(insert_split _ _ _ q).
  induction l1 as [| x l1 IH]; cbn in *; lia.
Qed.

Lemma work_step l i p q :
  l !! i = Some p → remaining p = S (remaining q) →
  S (sum_list (remaining <$> <[i := q]> l)) = sum_list (remaining <$> l).
Proof. intros Hl Hr. pose proof (remaining_insert l i p q Hl). lia. Qed.

Lemma started_step l i p q :
  l !! i = Some p →
  length (filter has_started (<[i := q]> l))
  = length (filter has_started l)
    + (if has_started q then 1 else 0) - (if has_started p then 1 else 0)
  ∧ (if has_started p then 1 else 0) ≤ length (filter has_started l).
Proof.
  intros Hl. pose proof (started_insert l i p q Hl) as Hs.
  destruct (insert_split l i p q Hl) as (l1 & l2 & Hl12 & _).
  assert ((if has_started p then 1 else 0) ≤ length (filter has_started l)).
  { rewrite Hl12, filter_app, length_app, started_cons. lia. }
  lia.
Qed.

Lemma lookup_insert_iff l i p q j x :
  l !! i = Some p →
  <[i := q]> l !! j = Some x ↔ (j = i ∧ x = q) ∨ (j ≠ i ∧ l !! j = Some x).
Proof.
  intros Hl%lookup_lt_Some. rewrite list_lookup_insert_Some.
  split; [intros [(-> & -> & _) | [? ?]] | intros [[-> ->] | [? ?]]]; auto.
Qed.

Lemma invariant_init contexts : invariant (length contexts) (init contexts).
Proof.
  unfold invariant, init. cbn.
  assert (∀ i p, (AtLock <$> contexts) !! i = Some p → in_block p = false)
    as Hat.
  { intros i p (c & -> & _)%list_lookup_fmap_Some. done. }
  split; [by rewrite length_fmap |].
  split; [by intros _ |].
  split; [done |].
  split.
  { intros i j p q Hi _ Hp. apply Hat in Hi. congruence. }
  split.
  { exists None. split; [done |]. intros i. split; [done |].
    intros (c & H%Hat). done. }
  induction contexts as [| c contexts IH]; [done |].
  rewrite fmap_cons, started_cons. cbn. apply IH.
  intros i p Hl. by apply (Hat (S i)).
Qed.

(** A step keeps the invariant and takes one unit of the work left. *)
Lemma invariant_step n st st' :
  invariant n st → step st st' →
  invariant n st' ∧ S (work_left st') = work_left st.
Proof.
  intros (Hlen & Hfree & Hheld & Huniq & (o & Hreplay & Hrun) & Hcount) Hstep.
  destruct Hstep as [st i c Hlock Hi | st i c Hi | st i c outcome Hi
                    | st i outcome Hi]; unfold invariant, work_left;
    cbn [locked handlers calls].
  - (* the lock is taken *)
    specialize (Hfree Hlock).
    split; [| by apply (work_step _ _ _ _ Hi)].
    split; [by rewrite length_insert |].
    split; [done |].
    split.
    { intros _. exists i, (Holding c). split; [| done].
      apply list_lookup_insert_eq. by eapply lookup_lt_Some. }
    split.
    { intros j k p q Hj Hk Hp Hq.
      apply (lookup_insert_iff _ _ _ _ _ _ Hi) in Hj as [[-> ->] | [_ Hj]];
        [| apply Hfree in Hj; congruence].
      apply (lookup_insert_iff _ _ _ _ _ _ Hi) in Hk as [[-> ->] | [_ Hk]];
        [done | apply Hfree in Hk; congruence]. }
    split.
    { exists o. split; [done |]. intros j. rewrite Hrun.
      split; intros (c' & Hj); exists c'.
      - apply (lookup_insert_iff _ _ _ _ _ _ Hi). right.
        split; [congruence | done].
      - apply (lookup_insert_iff _ _ _ _ _ _ Hi) in Hj as [[_ ?] | [_ ?]];
          [done | done]. }
    destruct (started_step _ _ _ (Holding c) Hi) as [-> Hs].
    cbn [has_started is_start] in *. lia.
  - (* the call starts *)
    assert (locked st = true) as Hlock.
    { destruct (locked st) eqn:Hl; [done |].
      specialize (Hfree eq_refl _ _ Hi). done. }
    assert (o = None) as ->.
    { destruct o as [j |]; [| done].
      destruct (proj1 (Hrun j) eq_refl) as (c' & Hj).
      assert (j = i) as -> by (by eapply Huniq).
      congruence. }
    split; [| by apply (work_step _ _ _ _ Hi)].
    split; [by rewrite length_insert |].
    split; [congruence |].
    split.
    { intros _. exists i, (Running c). split; [| done].
      apply list_lookup_insert_eq. by eapply lookup_lt_Some. }
    split.
    { intros j k p q Hj Hk Hp Hq.
      assert (∀ j p, <[i:=Running c]> (handlers st) !! j = Some p →
                     in_block p = true → j = i) as Hin.
      { intros j' p' Hj' Hp'.
        apply (lookup_insert_iff _ _ _ _ _ _ Hi) in Hj' as [[-> _] | [_ Hj']];
          [done |]. by eapply Huniq. }
      rewrite (Hin _ _ Hj Hp), (Hin _ _ Hk Hq). done. }
    split.
    { exists (Some i). split.
      - rewrite replay_snoc, Hreplay. done.
      - intros j. split.
        + intros [= <-]. exists c.
          apply list_lookup_insert_eq. by eapply lookup_lt_Some.
        + intros (c' & Hj).
          apply (lookup_insert_iff _ _ _ _ _ _ Hi) in Hj as [[-> _] | [_ Hj]];
            [done |].
          assert (None = Some j) by (apply Hrun; eauto). done. }
    rewrite count_calls_snoc.
    destruct (started_step _ _ _ (Running c) Hi) as [-> Hs].
    cbn [has_started is_start] in *. lia.
  - (* the call ends *)
    assert (locked st = true) as Hlock.
    { destruct (locked st) eqn:Hl; [done |].
      specialize (Hfree eq_refl _ _ Hi). done. }
    assert (o = Some i) as -> by (apply Hrun; eauto).
    split; [| by apply (work_step _ _ _ _ Hi)].
    split; [by rewrite length_insert |].
    split; [congruence |].
    split.
    { intros _. exists i, (Returned outcome). split; [| done].
      apply list_lookup_insert_eq. by eapply lookup_lt_Some. }
    split.
    { intros j k p q Hj Hk Hp Hq.
      assert (∀ j p, <[i:=Returned outcome]> (handlers st) !! j = Some p →
                     in_block p = true → j = i) as Hin.
      { intros j' p' Hj' Hp'.
        apply (lookup_insert_iff _ _ _ _ _ _ Hi) in Hj' as [[-> _] | [_ Hj']];
          [done |]. by eapply Huniq. }
      rewrite (Hin _ _ Hj Hp), (Hin _ _ Hk Hq). done. }
    split.
    { exists None. split.
      - rewrite replay_snoc, Hreplay. cbn. by rewrite decide_True.
      - intros j. split; [done |]. intros (c' & Hj).
        apply (lookup_insert_iff _ _ _ _ _ _ Hi) in Hj as [[_ ?] | [Hne Hj]];
          [done |].
        assert (Some i = Some j) as [= ->] by (apply Hrun; eauto). done. }
    rewrite count_calls_snoc.
    destruct (started_step _ _ _ (Returned outcome) Hi) as [-> Hs].
    cbn [has_started is_start] in *. lia.
  - (* the lock is given back *)
    split; [| by apply (work_step _ _ _ _ Hi)].
    assert (∀ j p, <[i:=Past]> (handlers st) !! j = Some p →
                   in_block p = false) as Hnone.
    { intros j p Hj.
      apply (lookup_insert_iff _ _ _ _ _ _ Hi) in Hj as [[_ ->] | [Hne Hj]];
        [done |].
      destruct (in_block p) eqn:Hp; [| done].
      exfalso. apply Hne. by eapply Huniq. }
    split; [by rewrite length_insert |].
    split; [by intros _ |].
    split; [done |].
    split.
    { intros j k p q Hj _ Hp _. apply Hnone in Hj. congruence. }
    split.
    { exists o. split; [done |]. intros j. rewrite Hrun.
      split; intros (c' & Hj); exists c'.
      - apply (lookup_insert_iff _ _ _ _ _ _ Hi). right.
        split; [congruence | done].
      - apply (lookup_insert_iff _ _ _ _ _ _ Hi) in Hj as [[_ ?] | [_ ?]];
          [done | done]. }
    destruct (started_step _ _ _ (Past) Hi) as [-> Hs].
    cbn [has_started is_start] in *. lia.
Qed.

Lemma work_left_init contexts :
  work_left (init contexts) = 4 * length contexts.
Proof.
  unfold work_left, init. cbn [handlers].
  induction contexts as [| c contexts IH]; [done |].
  rewrite fmap_cons. cbn in *. lia.
Qed.

Lemma nsteps_invariant contexts n st :
  nsteps step n (init contexts) st →
  invariant (length contexts) st ∧ n + work_left st = 4 * length contexts.
Proof.
  revert st. induction n as [| n IH]; intros st Hn.
  - inversion Hn; subst. split; [apply invariant_init |].
    by rewrite work_left_init.
  - apply nsteps_inv_r in Hn as (st1 & Hn & Hstep).
    destruct (IH _ Hn) as [Hinv Hwork].
    destruct (invariant_step _ _ _ Hinv Hstep) as [Hinv' Hdec].
    split; [done | lia].
Qed.

Lemma all_past_or l :
  Forall (λ p, p = Past) l ∨ ∃ i p, l !! i = Some p ∧ p ≠ Past.
Proof.
  induction l as [| p l [IH | (i & q & Hq & Hne)]].
  - by left.
  - destruct p; [right; by eexists 0, _.. | left; by constructor].
  - right. by exists (S i), q.
Qed.

Lemma in_block_steps st i p :
  handlers st !! i = Some p → in_block p = true → ∃ st', step st st'.
Proof.
  intros Hi Hp. destruct p as [c | c | c | outcome |]; try done.
  - eexists. by eapply start.
  - eexists. by eapply (finish _ _ _ (inr "")).
  - eexists. by eapply release.
Qed.

(** A state in which some handler has not left the block can take a step. *)
Lemma invariant_progress n st :
  invariant n st → ¬ final st → ∃ st', step st st'.
Proof.
  intros (_ & _ & Hheld & _) Hnot.
  destruct (all_past_or (handlers st)) as [Hall | (i & p & Hi & Hne)]; [done |].
  destruct (in_block p) eqn:Hp; [by eapply in_block_steps |].
  destruct p as [c | | | |]; try done.
  destruct (locked st) eqn:Hlock.
  - destruct (Hheld eq_refl) as (j & q & Hj & Hq). by eapply in_block_steps.
  - eexists. by eapply acquire.
Qed.

Lemma final_all_started l :
  Forall (λ p, p = Past) l → length (filter has_started l) = length l.
Proof.
  induction 1 as [| p l -> _ IH]; [done |].
  rewrite started_cons. cbn. by rewrite IH.
Qed.

End ModelLockFacts.

(** C9. With one message from each of the sessions, in every state that
    the handlers can reach, in whatever order they take their steps: the
    executions of [generate_response] so far do not overlap, at most one
    handler is inside the block of [model_lock], and no more executions
    than sessions have begun.  A run has at most four steps for each
    session; a state from which no step is left to take is final, and in a
    final state exactly as many executions as sessions have taken place. *)
Theorem generation_serialized contexts n st :
  nsteps ModelLock.step n (ModelLock.init contexts) st →
  ModelLock.serialized (ModelLock.calls st)
  ∧ (∀ i j p q,
       ModelLock.handlers st !! i = Some p → ModelLock.handlers st !! j = Some q →
       ModelLock.in_block p = true → ModelLock.in_block q = true → i = j)
  ∧ ModelLock.count_calls (ModelLock.calls st) ≤ length contexts
  ∧ n ≤ 4 * length contexts
  ∧ (ModelLock.final st → ModelLock.count_calls (ModelLock.calls st) = length contexts)
  ∧ (¬ ModelLock.final st → ∃ st', ModelLock.step st st').
Proof.
  intros Hn. destruct (nsteps_invariant _ _ _ Hn) as [Hinv Hwork].
  pose proof Hinv as (Hlen & _ & _ & Huniq & (o & Hreplay & _) & Hcount).
  split; [by exists o |].
  split; [exact Huniq |].
  split.
  { rewrite Hcount, <- Hlen. apply length_filter. }
  split; [lia |].
  split.
  - intros Hfinal. rewrite Hcount, <- Hlen. by apply final_all_started.
  - by apply (invariant_progress (length contexts)).
Qed.

Lemma generation_serialized_witness :
  let st := ModelLock.State false [ModelLock.Past; ModelLock.Past]
              [ModelLock.Start 1 "b"; ModelLock.End 1; ModelLock.Start 0 "a"; ModelLock.End 0] in
  ModelLock.serialized (ModelLock.calls st)
  ∧ (∀ i j p q,
       ModelLock.handlers st !! i = Some p → ModelLock.handlers st !! j = Some q →
       ModelLock.in_block p = true → ModelLock.in_block q = true → i = j)
  ∧ ModelLock.count_calls (ModelLock.calls st) ≤ length ["a"; "b"]
  ∧ 8 ≤ 4 * length ["a"; "b"]
  ∧ (ModelLock.final st → ModelLock.count_calls (ModelLock.calls st) = length ["a"; "b"])
  ∧ (¬ ModelLock.final st → ∃ st', ModelLock.step st st').
Proof.
  apply (generation_serialized ["a"; "b"] 8).
  eapply nsteps_l; [by apply (ModelLock.acquire _ 1 "b") |]. cbn.
  eapply nsteps_l; [by apply (ModelLock.start _ 1 "b") |]. cbn.
  eapply nsteps_l; [by apply (ModelLock.finish _ 1 "b" (inr "B.")) |]. cbn.
  eapply nsteps_l; [by apply (ModelLock.release _ 1 (inr "B.")) |]. cbn.
  eapply nsteps_l; [by apply (ModelLock.acquire _ 0 "a") |]. cbn.
  eapply nsteps_l; [by apply (ModelLock.start _ 0 "a") |]. cbn.
  eapply nsteps_l; [by apply (ModelLock.finish _ 0 "a" (inl "out of memory")) |]. cbn.
  eapply nsteps_l; [by apply (ModelLock.release _ 0 (inl "out of memory")) |]. cbn.
  apply nsteps_O.
Defined.

(** * Further properties *)

(** ** The shape of a reply *)

Section ReplyShape.

Implicit Types (s t : string) (c : ascii).

Lemma one_line_lstrip s : one_line s = true → one_line (Str.lstrip s) = true.
Proof.
  induction s as [| c s IH]; [done |]. cbn.
  intros [Hc Hs]%andb_prop. destruct (Char.is_space c); [by apply IH |].
  cbn. by rewrite Hc, Hs.
Qed.

Lemma one_line_rstrip s : one_line s = true → one_line (Str.rstrip s) = true.
Proof.
  induction s as [| c s IH]; [done |]. cbn.
  intros [Hc Hs]%andb_prop. specialize (IH Hs).
  destruct (Str.rstrip s) as [| c' t].
  - destruct (Char.is_space c); [done |]. cbn. by rewrite Hc.
  - cbn in *. by rewrite Hc, IH.
Qed.

Lemma one_line_replace s :
  one_line (Str.replace_char Char.newline " "%char s) = true.
Proof.
  induction s as [| c s IH]; [done |]. cbn. rewrite IH.
  by destruct (Ascii.eqb_spec c Char.newline) as [-> |]; [| rewrite andb_true_r;
    apply negb_true_iff, Ascii.eqb_neq].
Qed.

Lemma rstrip_last_char s c :
  Str.last_char s None = Some c → Char.is_space c = false →
  Str.last_char (Str.rstrip s) None = Some c.
Proof.
  assert (∀ d, s ≠ "" → Str.last_char s d = Some c →
               Char.is_space c = false →
               Str.last_char (Str.rstrip s) d = Some c) as Hgen.
  { induction s as [| a s IH]; intros d Hne Hl Hc; [done |].
    cbn in *. destruct s as [| b s].
    - cbn in *. injection Hl as ->. by rewrite Hc.
    - assert (Str.rstrip (String b s) ≠ "") as Hr
        by (by eapply rstrip_nonempty).
      specialize (IH (Some a) ltac:(done) Hl Hc).
      destruct (Str.rstrip (String b s)) as [| b' t]; [done |].
      exact IH. }
  intros Hl Hc. apply Hgen; [by eapply last_char_some_nonempty | done..].
Qed.

Lemma strip_last_char s c :
  Str.last_char s None = Some c → Char.is_space c = false →
  Str.last_char (Str.strip s) None = Some c.
Proof.
  intros Hl Hc. unfold Str.strip.
  apply rstrip_last_char; [by apply lstrip_last_char | done].
Qed.

(** The first character of a stripped text is no whitespace. *)
Lemma lstrip_first s c :
  Str.first_char (Str.lstrip s) = Some c → Char.is_space c = false.
Proof.
  induction s as [| a s IH]; [done |]. cbn.
  destruct (Char.is_space a) eqn:Ha; [done |]. by intros [= <-].
Qed.

Lemma rstrip_first s c :
  Str.first_char s = Some c → Char.is_space c = false →
  Str.first_char (Str.rstrip s) = Some c.
Proof.
  destruct s as [| a s]; [done |]. cbn. intros [= ->] Hc.
  destruct (Str.rstrip s); [by rewrite Hc | done].
Qed.

Lemma rstrip_first_inv s c :
  Str.first_char (Str.rstrip s) = Some c → Str.first_char s = Some c.
Proof.
  destruct s as [| a s]; [done |]. cbn.
  destruct (Str.rstrip s); [by destruct (Char.is_space a) | done].
Qed.

Lemma strip_first s c :
  Str.first_char (Str.strip s) = Some c → Char.is_space c = false.
Proof. intros H%rstrip_first_inv. by eapply lstrip_first. Qed.

Lemma rstrip_idem s : Str.rstrip (Str.rstrip s) = Str.rstrip s.
Proof.
  induction s as [| a s IH]; [done |]. cbn.
  destruct (Str.rstrip s) as [| b t] eqn:Hr.
  - destruct (Char.is_space a) eqn:Ha; [done |]. cbn. by rewrite Ha.
  - cbn [Str.rstrip]. cbn [Str.rstrip] in IH. by rewrite IH.
Qed.

Lemma lstrip_no_space s c :
  Str.first_char s = Some c → Char.is_space c = false → Str.lstrip s = s.
Proof. destruct s as [| a s]; [done |]. cbn. by intros [= ->] ->. Qed.

Lemma strip_idem s : Str.strip (Str.strip s) = Str.strip s.
Proof.
  unfold Str.strip.
  destruct (Str.rstrip (Str.lstrip s)) as [| c t] eqn:Hr; [done |].
  rewrite <- Hr.
  rewrite (lstrip_no_space (Str.rstrip (Str.lstrip s)) c).
  - apply rstrip_idem.
  - by rewrite Hr.
  - apply (strip_first s). unfold Str.strip. by rewrite Hr.
Qed.

Lemma sanitize_last decoded :
  ∃ c, Str.last_char (sanitize decoded) None = Some c ∧ c ∈ sentence_end.
Proof.
  unfold sanitize, final_cleanup.
  destruct (close_sentence_last (steps_1_6 decoded)) as (c & Hl & Hc).
  exists c. split; [| done].
  destruct (sentence_end_plain c Hc) as [Hsp Hnl].
  apply strip_last_char; [by apply replace_char_last | done].
Qed.

End ReplyShape.

(** X1. The reply is a single line: it has no newline, whatever the model
    has produced. *)
Theorem sanitize_single_line decoded : one_line (sanitize decoded) = true.
Proof.
  unfold sanitize, final_cleanup, Str.strip.
  apply one_line_rstrip, one_line_lstrip, one_line_replace.
Qed.

(** X2. The reply has no whitespace at its ends: its first character is
    no whitespace, and stripping it again changes nothing. *)
Theorem sanitize_stripped decoded :
  (∃ c, Str.first_char (sanitize decoded) = Some c ∧ Char.is_space c = false)
  ∧ Str.strip (sanitize decoded) = sanitize decoded.
Proof.
  split.
  - destruct (sanitize_last decoded) as (c & Hl & _).
    destruct (sanitize decoded) as [| a t] eqn:Hs; [done |].
    exists a. split; [done |].
    apply (strip_first (Str.replace_char Char.newline " "%char
                          (close_sentence (steps_1_6 decoded)))).
    fold (final_cleanup (close_sentence (steps_1_6 decoded))).
    fold (sanitize decoded). by rewrite Hs.
  - apply strip_idem.
Qed.

(** X3. The reply ends in a full stop, an exclamation mark or a question
    mark; so it is never the text "[END]" that closes a turn on the wire. *)
Theorem sanitize_ends_sentence decoded :
  Str.endswith_any sentence_end (sanitize decoded) = true
  ∧ sanitize decoded ≠ "[END]".
Proof.
  destruct (sanitize_last decoded) as (c & Hl & Hc).
  assert (Str.endswith_any sentence_end (sanitize decoded) = true) as Hend.
  { unfold Str.endswith_any. rewrite Hl.
    apply existsb_exists. exists c. split; [by apply list_elem_of_In |].
    apply Ascii.eqb_refl. }
  split; [done |]. intros Heq. by rewrite Heq in Hend.
Qed.

(** ** The text before the last "Assistant:" *)

Section SplitFacts.

Implicit Types (sep pre s t r : string) (c : ascii).

Lemma prefix_app sep r : String.prefix sep (sep +:+ r) = true.
Proof.
  induction sep as [| a sep IH]; [by destruct r |].
  rewrite str_app_cons. cbn. by destruct (ascii_dec a a).
Qed.

Lemma prefix_inv sep t : String.prefix sep t = true → ∃ r, t = sep +:+ r.
Proof.
  revert t. induction sep as [| a sep IH]; intros t Hp; [by exists t |].
  destruct t as [| b t]; [done |]. cbn in Hp.
  destruct (ascii_dec a b) as [-> |]; [| done].
  destruct (IH _ Hp) as (r & ->). by exists r.
Qed.

Lemma prefix_app_mono sep pre t :
  String.prefix sep pre = true → String.prefix sep (pre +:+ t) = true.
Proof.
  intros (r & ->)%prefix_inv. rewrite str_app_assoc. apply prefix_app.
Qed.

Lemma split_go_skip sep a b :
  Str.split_go sep (Str.length a) (a +:+ b) = Str.split_go sep 0 b.
Proof.
  induction a as [| c a IH]; [by destruct b |].
  rewrite str_app_cons. cbn [Str.length Str.split_go]. apply IH.
Qed.

Lemma split_at_sep c0 sep0 r :
  Str.split (String c0 sep0) (String c0 sep0 +:+ r)
  = "" :: Str.split (String c0 sep0) r.
Proof.
  unfold Str.split. rewrite str_app_cons. cbn [Str.split_go].
  rewrite <- (str_app_cons c0 sep0 r), prefix_app.
  replace (Str.length (String c0 sep0) - 1) with (Str.length sep0)
    by (cbn; lia).
  by rewrite split_go_skip.
Qed.

Lemma split_no_prefix sep c s :
  String.prefix sep (String c s) = false →
  Str.split sep (String c s) = Str.cons_head c (Str.split sep s).
Proof. intros Hp. unfold Str.split. cbn [Str.split_go]. by rewrite Hp. Qed.

Lemma split_go_nonempty sep k s : Str.split_go sep k s ≠ [].
Proof.
  revert k. induction s as [| c s IH]; intros k; [done |].
  cbn [Str.split_go]. destruct k as [| k]; [| apply IH].
  destruct (String.prefix sep (String c s)); [done |].
  specialize (IH 0). by destruct (Str.split_go sep 0 s).
Qed.

Lemma cons_head_app c (l1 l2 : list string) :
  l1 ≠ [] → Str.cons_head c (l1 ++ l2) = Str.cons_head c l1 ++ l2.
Proof. by destruct l1. Qed.

Lemma last_app_nonempty (l1 l2 : list string) d :
  l2 ≠ [] → List.last (l1 ++ l2) d = List.last l2 d.
Proof.
  intros Hne. induction l1 as [| x l1 IH]; [done |].
  cbn. rewrite IH. destruct (l1 ++ l2) eqn:Heq; [| done].
  by apply app_eq_nil in Heq as [_ ->].
Qed.

(** "Assistant:" does not overlap itself: an occurrence that starts
    before another one ends before it. *)
Lemma assistant_border pre r s :
  pre ≠ "" →
  "Assistant:" +:+ r = pre +:+ "Assistant:" +:+ s →
  ∃ pre', pre = "Assistant:" +:+ pre'.
Proof.
  intros Hne H. rewrite !str_app_cons, !str_app_nil_l in H.
  destruct pre as [| c pre]; [done |].
  rewrite str_app_cons in H. injection H as <- H.
  do 9 (destruct pre as [| ? pre];
        [by rewrite str_app_nil_l in H
        | rewrite str_app_cons in H; injection H as <- H]).
  by exists pre.
Qed.

Lemma split_assistant pre s :
  Str.split "Assistant:" (pre +:+ "Assistant:" +:+ s)
  = Str.split "Assistant:" pre ++ Str.split "Assistant:" s.
Proof.
  remember (Str.length pre) as n eqn:Hn. revert pre Hn.
  induction n as [n IH] using lt_wf_ind. intros pre ->.
  destruct pre as [| c pre].
  { rewrite str_app_nil_l. by rewrite split_at_sep. }
  destruct (String.prefix "Assistant:" (String c pre +:+ "Assistant:" +:+ s))
    eqn:Hp.
  - destruct (prefix_inv _ _ Hp) as (r & Hr).
    destruct (assistant_border (String c pre) r s) as (pre' & Hpre);
      [done | done |].
    rewrite Hpre, str_app_assoc, !split_at_sep.
    rewrite (IH (Str.length pre')); [done | | done].
    rewrite Hpre, str_length_app. cbn. lia.
  - assert (String.prefix "Assistant:" (String c pre) = false) as Hp'.
    { destruct (String.prefix _ (String c pre)) eqn:Hq; [| done].
      by rewrite (prefix_app_mono _ _ _ Hq) in Hp. }
    rewrite str_app_cons in *. rewrite (split_no_prefix _ _ _ Hp).
    rewrite (split_no_prefix _ _ _ Hp').
    rewrite (IH (Str.length pre)); [| cbn; lia | done].
    apply cons_head_app, split_go_nonempty.
Qed.

Lemma extract_reply_after pre s :
  extract_reply (pre +:+ "Assistant:" +:+ s) = extract_reply s.
Proof.
  unfold extract_reply. rewrite split_assistant.
  rewrite last_app_nonempty; [done | apply split_go_nonempty].
Qed.

End SplitFacts.

(** X4. What stands before an occurrence of "Assistant:" in the decoded
    text has no effect on the reply: the pieces of [split] are those of
    the two sides, and the clean-up works on the last piece only. *)
Theorem sanitize_after_assistant pre s :
  Str.split "Assistant:" (pre +:+ "Assistant:" +:+ s)
  = Str.split "Assistant:" pre ++ Str.split "Assistant:" s
  ∧ sanitize (pre +:+ "Assistant:" +:+ s) = sanitize s.
Proof.
  split; [apply split_assistant |].
  unfold sanitize, steps_1_6. by rewrite extract_reply_after.
Qed.

(** X5. When the decoded text is the context followed by what the model
    has added, as it is for a causal model that returns the prompt with
    the completion, the reply is the clean-up of the added text alone:
    nothing of the history reaches the client. *)
Theorem generate_response_completion model_decode h completion :
  model_decode (render h) = render h +:+ completion →
  generate_response model_decode (render h) = sanitize completion.
Proof.
  intros Hdec. unfold generate_response. rewrite Hdec. unfold render.
  rewrite <- (str_app_assoc (Str.join nl h) nl), str_app_assoc.
  unfold sanitize, steps_1_6. by rewrite extract_reply_after.
Qed.

Lemma generate_response_completion_witness :
  generate_response (λ context, context +:+ " Four. User: thanks")
    (render [entry System system_prompt; entry User "What is 2+2?"])
  = sanitize " Four. User: thanks".
Proof.
  apply (generate_response_completion
           (λ context, context +:+ " Four. User: thanks")
           [entry System system_prompt; entry User "What is 2+2?"]).
  reflexivity.
Defined.

(** ** Where the other patterns match *)

Section PatternFacts.

Implicit Types (r : Re.regex) (p q : option ascii) (s t u : string).

Lemma match_len_None r p s :
  Re.match_at r p s = None → Re.match_len r p s = None.
Proof. unfold Re.match_len. by intros ->. Qed.

(** Where no match starts, [re.split] does not cut. *)
Lemma split_go_copy r p s :
  no_match_inside r p s "" = true → Re.split_go r 0 p s = [s].
Proof.
  revert p. induction s as [| c s IH]; intros p Hno; [done |].
  cbn [no_match_inside] in Hno. rewrite str_app_nil_r in Hno.
  destruct (Re.match_at r p (String c s)) eqn:Hm; [done |].
  cbn [Re.split_go]. rewrite (match_len_None _ _ _ Hm).
  by rewrite (IH _ Hno).
Qed.

Lemma sub_go_prev_any r repl skip p q s :
  (∀ t, Re.match_at r p t = Re.match_at r q t) →
  Re.sub_go r repl skip p s = Re.sub_go r repl skip q s.
Proof.
  intros Hpq. destruct s as [| c s], skip as [| n]; cbn [Re.sub_go];
    unfold Re.match_len; rewrite ?Hpq; done.
Qed.

(** *** The pattern of the turn markers *)

Lemma lit_match_exact l p s k t :
  Re.lit_match false l p s k = Some t →
  ∃ u, s = l +:+ u ∧ k (Str.last_char l p) u = Some t.
Proof.
  revert p s. induction l as [| a l IH]; intros p s Hm; [by exists s |].
  destruct s as [| c s]; [done |]. cbn [Re.lit_match] in Hm.
  unfold Char.eqb in Hm. destruct (Ascii.eqb_spec a c) as [-> |]; [| done].
  destruct (IH _ _ Hm) as (u & -> & Hk). by exists u.
Qed.

Lemma turn_marker_match p s t :
  Re.match_at turn_marker_re p s = Some t →
  Re.is_word_opt p = false
  ∧ Re.is_word_opt (Str.first_char t) = true
  ∧ (s = "User:" +:+ t ∨ s = "Assistant:" +:+ t).
Proof.
  unfold Re.match_at, turn_marker_re. cbn [Re.rmatch].
  destruct (Re.at_word_boundary p s) eqn:Hb; [| done].
  assert (∀ l, Re.is_word_opt (Str.first_char l) = true → l ≠ "" →
               Re.is_word_opt (Str.last_char l p) = false →
            Re.lit_match false l p s
              (λ p' u, if Re.at_word_boundary p' u then Some u else None)
            = Some t →
            Re.is_word_opt p = false
            ∧ Re.is_word_opt (Str.first_char t) = true ∧ s = l +:+ t) as Hlit.
  { intros l Hfirst Hne Hlast (u & -> & Hk)%lit_match_exact.
    unfold Re.at_word_boundary in Hb, Hk.
    rewrite first_char_app, Hfirst in Hb by done.
    rewrite Hlast in Hk.
    destruct (Re.is_word_opt (Str.first_char u)) eqn:Hu; [| done].
    injection Hk as <-. by destruct (Re.is_word_opt p). }
  destruct (Re.lit_match false "User:" p s _) as [t' |] eqn:H1.
  - intros [= ->]. destruct (Hlit "User:") as (? & ? & ?); auto.
  - intros H2. destruct (Hlit "Assistant:") as (? & ? & ?); auto.
Qed.

Lemma colon_then_word_tail c s :
  colon_then_word (String c s) = false → colon_then_word s = false.
Proof. cbn. by intros [_ ?]%orb_false_elim. Qed.

Lemma no_colon_no_turn_marker p s :
  colon_then_word s = false → no_match_inside turn_marker_re p s "" = true.
Proof.
  revert p. induction s as [| c s IH]; intros p Hno; [done |].
  cbn [no_match_inside]. rewrite str_app_nil_r.
  destruct (Re.match_at turn_marker_re p (String c s)) as [t |] eqn:Hm.
  - exfalso. apply turn_marker_match in Hm as (_ & Ht & [Hs | Hs]);
      rewrite Hs, !str_app_cons, str_app_nil_l in Hno; cbn in Hno;
      by rewrite Ht in Hno.
  - apply IH. by eapply colon_then_word_tail.
Qed.

(** *** The pattern of the tags *)

Lemma tag_match_prev p q s : Re.match_at tag_re p s = Re.match_at tag_re q s.
Proof. by destruct s. Qed.

Lemma no_bracket_no_tag p a s :
  has_char "<" a = false → no_match_inside tag_re p a s = true.
Proof.
  revert p. induction a as [| c a IH]; intros p Hno; [done |].
  cbn in Hno. apply orb_false_elim in Hno as [Hc Ha].
  cbn [no_match_inside]. rewrite str_app_cons.
  assert (Re.match_at tag_re p (String c (a +:+ s)) = None) as ->.
  { unfold Re.match_at, tag_re. cbn [Re.rmatch Re.lit_match].
    unfold Char.eqb. rewrite Ascii.eqb_sym. by rewrite Hc. }
  by apply IH.
Qed.

Lemma tag_body_match p t b :
  has_char ">" t = false → one_line t = true →
  Re.star_lazy Re.Dot p (t +:+ ">" +:+ b)
    (λ p' u, Re.lit_match false ">" p' u (λ _ v, Some v))
  = Some b.
Proof.
  revert p. induction t as [| c t IH]; intros p Hno Hline.
  - rewrite str_app_nil_l. by destruct b.
  - cbn in Hno, Hline. apply orb_false_elim in Hno as [Hc Ht].
    apply andb_prop in Hline as [Hnl Hline].
    rewrite str_app_cons. cbn [Re.star_lazy Re.lit_match].
    unfold Char.eqb. rewrite Ascii.eqb_sym, Hc. cbn [Re.accepts].
    rewrite Hnl. by apply IH.
Qed.

Lemma tag_match p t b :
  has_char ">" t = false → one_line t = true →
  Re.match_at tag_re p ("<" +:+ t +:+ ">" +:+ b) = Some b.
Proof.
  intros Hno Hline. unfold Re.match_at, tag_re.
  rewrite str_app_cons, str_app_nil_l. cbn [Re.rmatch Re.lit_match].
  cbn. by apply tag_body_match.
Qed.

End PatternFacts.

(** X6. The pattern of line 114 matches "User:" or "Assistant:" only when
    the character before is no word character and the character after the
    colon is one.  A text in which no colon is followed at once by a word
    character, such as a continuation "User: ..." with a space after the
    colon, is not cut. *)
Theorem continuation_needs_word_after_colon :
  (∀ p s t,
     Re.match_at turn_marker_re p s = Some t →
     Re.is_word_opt p = false
     ∧ Re.is_word_opt (Str.first_char t) = true
     ∧ (s = "User:" +:+ t ∨ s = "Assistant:" +:+ t))
  ∧ (∀ s, colon_then_word s = false → cut_continuation s = Str.strip s).
Proof.
  split; [apply turn_marker_match |].
  intros s Hno. unfold cut_continuation, Re.split.
  by rewrite (split_go_copy _ _ _ (no_colon_no_turn_marker None s Hno)).
Qed.

Lemma continuation_needs_word_after_colon_witness :
  cut_continuation "Four. User: thanks" = Str.strip "Four. User: thanks".
Proof.
  apply (proj2 continuation_needs_word_after_colon "Four. User: thanks").
  reflexivity.
Defined.

(** X7. A tag that opens and closes on one line is removed, the first
    one of the text first, and the text after it is treated in the same
    way; a text without "<" is left as it is. *)
Theorem remove_tags_first_tag :
  (∀ a t b,
     has_char "<" a = false → has_char ">" t = false → one_line t = true →
     remove_tags (a +:+ "<" +:+ t +:+ ">" +:+ b) = a +:+ remove_tags b)
  ∧ (∀ s, has_char "<" s = false → remove_tags s = s).
Proof.
  split.
  - intros a t b Ha Ht Hline. unfold remove_tags, Re.sub.
    rewrite (sub_go_copy _ _ _ _ _ (no_bracket_no_tag None a _ Ha)).
    f_equal.
    pose proof (tag_match (Str.last_char a None) t b Ht Hline) as Hm.
    rewrite <- (str_app_assoc t), <- (str_app_assoc "<") in Hm |- *.
    rewrite (sub_go_match tag_re "" _ _ b); [| by destruct t | exact Hm].
    rewrite str_app_nil_l. apply sub_go_prev_any. intros u.
    apply tag_match_prev.
  - intros s Hs. unfold remove_tags, Re.sub.
    rewrite <- (str_app_nil_r s) at 1.
    rewrite (sub_go_copy _ _ _ _ _ (no_bracket_no_tag None s "" Hs)).
    cbn. apply str_app_nil_r.
Qed.

Lemma remove_tags_first_tag_witness :
  remove_tags ("It is " +:+ "<" +:+ "b" +:+ ">" +:+ "four</b>.")
  = "It is " +:+ remove_tags "four</b>.".
Proof.
  apply (proj1 remove_tags_first_tag "It is " "b" "four</b>.");
    reflexivity.
Defined.

(** ** The rounds of the connection handler *)

Section Rounds.

Import Handler.

Implicit Types (w : world) (env : turn_env) (h : list string).

Lemma turn_receive_raised session_id env w e :
  on_receive env = inl e → turn session_id env w = (Raised e, w).
Proof.
  intros Hrecv. unfold turn.
  apply bind_raised. by rewrite run_receive, Hrecv.
Qed.

Lemma turn_missing session_id env w user_input :
  on_receive env = inr user_input →
  chat_histories w !! session_id = None →
  turn session_id env w
  = (Raised (Error ("'" +:+ session_id +:+ "'")),
     World (chat_histories w)
           (trace w ++ [Printed (UserLine session_id user_input)])).
Proof.
  intros Hrecv Hl. unfold turn.
  rewrite (bind_ok _ _ w user_input w) by (by rewrite run_receive, Hrecv).
  rewrite (bind_ok _ _ _ _ _ (run_emit _ _)).
  apply bind_raised. unfold append_history. apply bind_raised.
  unfold get_history. cbn [chat_histories]. by rewrite Hl.
Qed.

(** A round ends normally only when nothing has failed. *)
Lemma turn_ok_inv session_id env w w' :
  turn session_id env w = (Ok (), w') →
  ∃ h user_input response,
    chat_histories w !! session_id = Some h
    ∧ on_receive env = inr user_input
    ∧ on_generate env (render (append_user h user_input)) = inr response
    ∧ on_log env = None
    ∧ w' = World
        (<[session_id := append_assistant (append_user h user_input) response]>
           (chat_histories w))
        (trace w ++ round_events session_id
                      (render (append_user h user_input))
                      (user_input, response)).
Proof.
  intros Hrun.
  destruct (on_receive env) as [e | user_input] eqn:Hrecv.
  { by rewrite (turn_receive_raised _ _ _ _ Hrecv) in Hrun. }
  destruct (chat_histories w !! session_id) as [h |] eqn:Hl.
  2: { by rewrite (turn_missing _ _ _ _ Hrecv Hl) in Hrun. }
  rewrite (turn_run _ _ _ _ _ Hl Hrecv) in Hrun. cbv zeta in Hrun.
  destruct (on_generate env _) as [| response] eqn:Hgen; [done |].
  destruct (on_log env) eqn:Hlog; [done |].
  destruct (on_send_reply env); [done |].
  destruct (on_send_end env); [done |].
  injection Hrun as <-. exists h, user_input, response.
  repeat split; try done.
  unfold round_events. cbn [fst snd]. f_equal.
  by rewrite <- !app_assoc.
Qed.

Lemma logged_app tr1 tr2 : logged (tr1 ++ tr2) = logged tr1 ++ logged tr2.
Proof. apply omap_app. Qed.

(** A round in which nothing fails. *)
Lemma turn_ok_round session_id round w h :
  chat_histories w !! session_id = Some h →
  turn session_id (ok_env round) w
  = (Ok (),
     World (<[session_id := append_assistant (append_user h round.1) round.2]>
              (chat_histories w))
           (trace w ++ round_events session_id (render (append_user h round.1))
                         round)).
Proof.
  intros Hl. rewrite (turn_run session_id (ok_env round) w h round.1 Hl eq_refl).
  cbv zeta.
  cbn [ok_env on_generate on_log on_send_reply on_send_end].
  unfold round_events. by rewrite <- !app_assoc.
Qed.

Lemma serve_ok_rounds session_id l w h :
  chat_histories w !! session_id = Some h →
  ∃ evs,
    serve session_id (ok_env <$> l) w
    = (Ok (), World (<[session_id := rounds h l]> (chat_histories w))
                    (trace w ++ evs))
    ∧ sent evs = flat_map (λ round, [round.2; "[END]"]) l
    ∧ logged evs = (λ round, (session_id, round.1, round.2)) <$> l
    ∧ length (generated evs) = length l.
Proof.
  revert w h. induction l as [| round l IH]; intros w h Hl.
  - exists []. rewrite app_nil_r. cbn [fmap list_fmap serve rounds].
    rewrite insert_id by done. by destruct w.
  - cbn [fmap list_fmap serve].
    rewrite (bind_ok _ _ _ _ _ (turn_ok_round _ round _ _ Hl)).
    destruct (IH (World (<[session_id := append_assistant
                                            (append_user h round.1) round.2]>
                           (chat_histories w))
                        (trace w ++ round_events session_id
                                      (render (append_user h round.1)) round))
                 _ (lookup_insert_eq _ _ _))
      as (evs & Hrun & Hsent & Hlog & Hgen).
    exists (round_events session_id (render (append_user h round.1)) round
            ++ evs).
    rewrite Hrun. cbn [chat_histories trace].
    rewrite insert_insert_eq, <- app_assoc. destruct round as [u r].
    split; [done |]. rewrite sent_app, logged_app, generated_app, length_app.
    rewrite Hsent, Hlog, Hgen. by cbn.
Qed.

Lemma orderly_app evs1 evs2 :
  orderly evs1 → orderly evs2 → orderly (evs1 ++ evs2).
Proof.
  unfold orderly. rewrite sent_app, logged_app, generated_app, !length_app. lia.
Qed.

Lemma list_prefix_app_cases {A} (p l1 l2 : list A) :
  p `prefix_of` l1 ++ l2 →
  p `prefix_of` l1 ∨ ∃ q, p = l1 ++ q ∧ q `prefix_of` l2.
Proof.
  revert p. induction l1 as [| x l1 IH]; intros p Hp.
  - right. by exists p.
  - destruct p as [| y p]; [left; apply prefix_nil |].
    cbn [app] in Hp. pose proof (prefix_cons_inv_1 _ _ _ _ Hp) as ->.
    apply prefix_cons_inv_2 in Hp.
    destruct (IH _ Hp) as [Hl | (q & -> & Hq)].
    + left. by apply prefix_cons.
    + right. by exists q.
Qed.

Lemma orderly_prefixes_app evs1 evs2 :
  (∀ p, p `prefix_of` evs1 → orderly p) →
  (∀ p, p `prefix_of` evs2 → orderly p) →
  ∀ p, p `prefix_of` evs1 ++ evs2 → orderly p.
Proof.
  intros H1 H2 p [Hp | (q & -> & Hq)]%list_prefix_app_cases; [by apply H1 |].
  apply orderly_app; [by apply H1 | by apply H2].
Qed.

Ltac prefix_cases :=
  repeat match goal with
         | H : ?p `prefix_of` [] |- _ => apply prefix_nil_inv in H; subst p
         | H : ?p `prefix_of` (_ :: _) |- _ =>
             destruct p;
             [ clear H
             | pose proof (prefix_cons_inv_1 _ _ _ _ H);
               apply prefix_cons_inv_2 in H; subst ]
         end.

(** What a round does to the outside, whatever fails in it. *)
Lemma turn_events session_id env w :
  ∃ evs, trace (turn session_id env w).2 = trace w ++ evs
         ∧ (∀ p, p `prefix_of` evs → orderly p)
         ∧ length (generated evs) ≤ 1.
Proof.
  destruct (on_receive env) as [e | user_input] eqn:Hrecv.
  { rewrite (turn_receive_raised _ _ _ _ Hrecv). exists [].
    rewrite app_nil_r. split; [done |]. split; [| cbn; lia].
    intros p Hp. prefix_cases. unfold orderly. cbn. lia. }
  destruct (chat_histories w !! session_id) as [h |] eqn:Hl.
  2: { rewrite (turn_missing _ _ _ _ Hrecv Hl). eexists. split; [done |].
       split; [| cbn; lia].
       intros p Hp. prefix_cases; unfold orderly; cbn; lia. }
  rewrite (turn_run _ _ _ _ _ Hl Hrecv). cbv zeta.
  destruct (on_generate env _), (on_log env), (on_send_reply env),
    (on_send_end env); cbn [snd trace]; rewrite <- ?app_assoc;
    (eexists; split; [done |]); (split; [| cbn; lia]);
    intros p Hp; cbn [app] in Hp; prefix_cases; unfold orderly; cbn; lia.
Qed.

Lemma serve_events session_id envs w :
  ∃ evs, trace (serve session_id envs w).2 = trace w ++ evs
         ∧ (∀ p, p `prefix_of` evs → orderly p)
         ∧ length (generated evs) ≤ length envs.
Proof.
  revert w. induction envs as [| env envs IH]; intros w.
  - exists []. rewrite app_nil_r. split; [done |]. split; [| cbn; lia].
    intros p Hp. prefix_cases. unfold orderly. cbn. lia.
  - destruct (turn_events session_id env w) as (evs1 & Htr1 & Ho1 & Hg1).
    cbn [serve]. unfold mbind, M_bind.
    destruct (turn session_id env w) as [[[] | e] w1] eqn:Hturn.
    + destruct (IH w1) as (evs2 & Htr2 & Ho2 & Hg2).
      exists (evs1 ++ evs2). cbn [snd] in Htr1. rewrite Htr2, Htr1, app_assoc.
      split; [done |]. split; [by apply orderly_prefixes_app |].
      rewrite generated_app, length_app. cbn [length]. lia.
    + exists evs1. split; [done |]. split; [done |]. cbn [length]. lia.
Qed.

Lemma on_exception_run session_id e w :
  on_exception session_id e w
  = (Ok (),
     World (delete session_id (chat_histories w))
           (trace w ++ match e with
                       | WebSocketDisconnect =>
                           [Printed (Disconnected session_id); GcCollected]
                       | Error _ =>
                           [Printed (ErrorLine session_id e); SocketClosed;
                            GcCollected]
                       end)).
Proof.
  destruct e; unfold on_exception, mbind, M_bind, emit, pop_history;
    cbn [chat_histories trace]; by rewrite <- ?app_assoc.
Qed.

Lemma serve_cons_raised session_id env envs w e w1 :
  turn session_id env w = (Raised e, w1) →
  serve session_id (env :: envs) w = (Raised e, w1).
Proof. intros H. cbn [serve]. by apply bind_raised. Qed.

Lemma guarded_loop_raised session_id envs w e w1 :
  serve session_id envs w = (Raised e, w1) →
  guarded_loop session_id envs w
  = (Ok Closed, (on_exception session_id e w1).2).
Proof.
  intros H. unfold guarded_loop. rewrite H. by rewrite on_exception_run.
Qed.

Lemma guarded_loop_ok session_id envs w w1 :
  serve session_id envs w = (Ok (), w1) →
  guarded_loop session_id envs w = (Ok Open, w1).
Proof. intros H. unfold guarded_loop. by rewrite H. Qed.

(** *** What belongs to a session *)

Lemma local_to_ret session_id {A} (a : A) : local_to session_id (mret a).
Proof. intros w. split; [done |]. exists []. by rewrite app_nil_r. Qed.

Lemma local_to_raise session_id {A} e : local_to session_id (@raise A e).
Proof. intros w. split; [done |]. exists []. by rewrite app_nil_r. Qed.

Lemma local_to_bind session_id {A B} (m : M A) (f : A → M B) :
  local_to session_id m → (∀ a, local_to session_id (f a)) →
  local_to session_id (m ≫= f).
Proof.
  intros Hm Hf w. unfold mbind, M_bind.
  destruct (Hm w) as [Hother (evs1 & Htr1)].
  destruct (m w) as [[a | e] w1]; cbn [snd] in *.
  - destruct (Hf a w1) as [Hother2 (evs2 & Htr2)]. split.
    + intros other Hne. by rewrite Hother2, Hother.
    + exists (evs1 ++ evs2). by rewrite Htr2, Htr1, app_assoc.
  - split; [done | by exists evs1].
Qed.

Lemma local_to_emit session_id ev : local_to session_id (emit ev).
Proof. intros w. split; [done | by exists [ev]]. Qed.

Lemma local_to_get session_id : local_to session_id (get_history session_id).
Proof.
  intros w. unfold get_history.
  destruct (chat_histories w !! session_id);
    (split; [done |]; exists []; by rewrite app_nil_r).
Qed.

Lemma local_to_set session_id h : local_to session_id (set_history session_id h).
Proof.
  intros w. split.
  - intros other Hne. cbn. by rewrite lookup_insert_ne.
  - exists []. by rewrite app_nil_r.
Qed.

Lemma local_to_pop session_id : local_to session_id (pop_history session_id).
Proof.
  intros w. split.
  - intros other Hne. cbn. by rewrite lookup_delete_ne.
  - exists []. by rewrite app_nil_r.
Qed.

Lemma local_to_append session_id x :
  local_to session_id (append_history session_id x).
Proof.
  apply local_to_bind; [apply local_to_get | intros h; apply local_to_set].
Qed.

Lemma local_to_send session_id outcome text :
  local_to session_id (send_text outcome text).
Proof. destruct outcome; [apply local_to_raise | apply local_to_emit]. Qed.

Lemma local_to_turn session_id env : local_to session_id (turn session_id env).
Proof.
  unfold turn, receive_text, generate, log_chat.
  repeat first
    [ apply local_to_bind; [| intros ?]
    | apply local_to_emit | apply local_to_append | apply local_to_get
    | apply local_to_set | apply local_to_send | apply local_to_ret
    | apply local_to_raise
    | match goal with |- local_to _ (match ?x with _ => _ end) => destruct x end
    | match goal with |- local_to _ (if ?x then _ else _) => destruct x end ].
Qed.

Lemma local_to_serve session_id envs : local_to session_id (serve session_id envs).
Proof.
  induction envs as [| env envs IH]; [apply local_to_ret |].
  apply local_to_bind; [apply local_to_turn | done].
Qed.

Lemma local_to_on_exception session_id e :
  local_to session_id (on_exception session_id e).
Proof.
  destruct e; unfold on_exception;
    repeat first [ apply local_to_bind; [| intros ?]
                 | apply local_to_emit | apply local_to_pop ].
Qed.

Lemma local_to_guarded_loop session_id envs :
  local_to session_id (guarded_loop session_id envs).
Proof.
  intros w. unfold guarded_loop.
  destruct (local_to_serve session_id envs w) as [Hother (evs1 & Htr1)].
  destruct (serve session_id envs w) as [[[] | e] w1]; cbn [snd] in *.
  - split; [done | by exists evs1].
  - rewrite on_exception_run. cbn [snd chat_histories trace]. split.
    + intros other Hne. by rewrite lookup_delete_ne, Hother.
    + rewrite Htr1, <- app_assoc. by eexists.
Qed.

(** *** The history after the rounds *)

Lemma rounds_snoc h l round :
  rounds h (l ++ [round])
  = append_assistant (append_user (rounds h l) round.1) round.2.
Proof.
  revert h. induction l as [| [u r] l IH]; intros h.
  - by destruct round.
  - cbn [rounds app]. apply IH.
Qed.

Lemma rounds_well_formed h l : well_formed h → well_formed (rounds h l).
Proof.
  revert h. induction l as [| [u r] l IH]; intros h Hwf; [done |].
  cbn [rounds]. apply IH.
  by apply well_formed_append_assistant, well_formed_append_user.
Qed.

Lemma rounds_length h l : length h ≤ 8 → length (rounds h l) ≤ 8.
Proof.
  revert h. induction l as [| [u r] l IH]; intros h Hlen; [done |].
  cbn [rounds]. apply IH. unfold append_assistant.
  rewrite length_app. pose proof (append_user_length h u). cbn. lia.
Qed.

(** A loop that has not raised has completed every round. *)
Lemma serve_ok_inv session_id envs w w' h :
  chat_histories w !! session_id = Some h →
  serve session_id envs w = (Ok (), w') →
  ∃ l, length l = length envs
       ∧ chat_histories w' !! session_id = Some (rounds h l).
Proof.
  revert w h. induction envs as [| env envs IH]; intros w h Hl Hrun.
  - exists []. injection Hrun as <-. by split.
  - cbn [serve] in Hrun. unfold mbind, M_bind in Hrun.
    destruct (turn session_id env w) as [[[] | e] w1] eqn:Hturn; [| done].
    destruct (turn_ok_inv _ _ _ _ Hturn)
      as (h0 & u & r & Hl0 & _ & _ & _ & ->).
    rewrite Hl in Hl0. injection Hl0 as <-.
    destruct (IH _ _ (lookup_insert_eq _ _ _) Hrun) as (l & Hlen & Hl').
    exists ((u, r) :: l). split; [cbn; by rewrite Hlen | done].
Qed.

(** *** What a handler reads *)

Lemma reads_own_ret session_id {A} (a : A) : reads_own session_id (mret a).
Proof.
  intros w1 w2 Hown. split; [done |]. split; [done |].
  exists []. by rewrite !app_nil_r.
Qed.

Lemma reads_own_raise session_id {A} e : reads_own session_id (@raise A e).
Proof.
  intros w1 w2 Hown. split; [done |]. split; [done |].
  exists []. by rewrite !app_nil_r.
Qed.

Lemma reads_own_bind session_id {A B} (m : M A) (f : A → M B) :
  reads_own session_id m → (∀ a, reads_own session_id (f a)) →
  reads_own session_id (m ≫= f).
Proof.
  intros Hm Hf w1 w2 Hown. unfold mbind, M_bind.
  destruct (Hm w1 w2 Hown) as (Hres & Hown' & evs1 & Htr1 & Htr2).
  destruct (m w1) as [r1 w1'], (m w2) as [r2 w2']. cbn [fst snd] in *.
  subst r2. destruct r1 as [a | e]; cbn [fst snd].
  - destruct (Hf a w1' w2' Hown') as (Hres' & Hown'' & evs2 & Htr1' & Htr2').
    split; [done |]. split; [done |]. exists (evs1 ++ evs2).
    by rewrite Htr1', Htr2', Htr1, Htr2, !app_assoc.
  - split; [done |]. split; [done |]. by exists evs1.
Qed.

Lemma reads_own_emit session_id ev : reads_own session_id (emit ev).
Proof. intros w1 w2 Hown. split; [done |]. split; [done |]. by exists [ev]. Qed.

Lemma reads_own_get session_id : reads_own session_id (get_history session_id).
Proof.
  intros w1 w2 Hown. unfold get_history. rewrite Hown.
  destruct (chat_histories w2 !! session_id) eqn:Hl; cbn [fst snd];
    (split; [done |]; split; [congruence |]; exists [];
     by rewrite !app_nil_r).
Qed.

Lemma reads_own_set session_id h : reads_own session_id (set_history session_id h).
Proof.
  intros w1 w2 Hown. split; [done |]. split.
  - cbn. by rewrite !lookup_insert_eq.
  - exists []. by rewrite !app_nil_r.
Qed.

Lemma reads_own_pop session_id : reads_own session_id (pop_history session_id).
Proof.
  intros w1 w2 Hown. split; [done |]. split.
  - cbn. by rewrite !lookup_delete_eq.
  - exists []. by rewrite !app_nil_r.
Qed.

Lemma reads_own_append session_id x :
  reads_own session_id (append_history session_id x).
Proof.
  apply reads_own_bind; [apply reads_own_get | intros h; apply reads_own_set].
Qed.

Lemma reads_own_send session_id outcome text :
  reads_own session_id (send_text outcome text).
Proof. destruct outcome; [apply reads_own_raise | apply reads_own_emit]. Qed.

Lemma reads_own_turn session_id env : reads_own session_id (turn session_id env).
Proof.
  unfold turn, receive_text, generate, log_chat.
  repeat first
    [ apply reads_own_bind; [| intros ?]
    | apply reads_own_emit | apply reads_own_append | apply reads_own_get
    | apply reads_own_set | apply reads_own_send | apply reads_own_ret
    | apply reads_own_raise
    | match goal with |- reads_own _ (match ?x with _ => _ end) => destruct x end
    | match goal with |- reads_own _ (if ?x then _ else _) => destruct x end ].
Qed.

Lemma reads_own_serve session_id envs : reads_own session_id (serve session_id envs).
Proof.
  induction envs as [| env envs IH]; [apply reads_own_ret |].
  apply reads_own_bind; [apply reads_own_turn | done].
Qed.

Lemma reads_own_guarded_loop session_id envs :
  reads_own session_id (guarded_loop session_id envs).
Proof.
  intros w1 w2 Hown. unfold guarded_loop.
  destruct (reads_own_serve session_id envs w1 w2 Hown)
    as (Hres & Hown' & evs & Htr1 & Htr2).
  destruct (serve session_id envs w1) as [r1 w1'],
           (serve session_id envs w2) as [r2 w2']. cbn [fst snd] in *.
  subst r2. destruct r1 as [[] | e]; cbn [fst snd].
  - split; [done |]. split; [done |]. by exists evs.
  - rewrite !on_exception_run. cbn [fst snd chat_histories trace].
    split; [done |]. split; [by rewrite !lookup_delete_eq |].
    eexists. rewrite Htr1, Htr2, <- !app_assoc. by split.
Qed.

Lemma guarded_loop_events session_id envs w :
  ∃ evs, trace (guarded_loop session_id envs w).2 = trace w ++ evs
         ∧ (∀ p, p `prefix_of` evs → orderly p)
         ∧ length (generated evs) ≤ length envs.
Proof.
  destruct (serve_events session_id envs w) as (evs & Htr & Ho & Hg).
  unfold guarded_loop.
  destruct (serve session_id envs w) as [[[] | e] w1]; cbn [snd] in *.
  - by exists evs.
  - rewrite on_exception_run. cbn [snd trace]. rewrite Htr, <- app_assoc.
    eexists. split; [done |]. split.
    + apply orderly_prefixes_app; [done |].
      intros p Hp. destruct e; prefix_cases; unfold orderly; cbn; lia.
    + rewrite generated_app, length_app. destruct e; cbn; lia.
Qed.

Lemma endpoint_run session_id envs w :
  websocket_endpoint session_id envs w
  = guarded_loop session_id envs
      (World (<[session_id := [entry System system_prompt]]> (chat_histories w))
             (trace w ++ [Accepted; Printed (Connected session_id)])).
Proof.
  unfold websocket_endpoint.
  rewrite (bind_ok _ _ _ _ _ (run_emit _ _)).
  rewrite (bind_ok _ _ _ _ _ (run_emit _ _)). cbn [chat_histories trace].
  unfold mbind at 1, M_bind at 1, set_history at 1. cbn [chat_histories trace].
  by rewrite <- app_assoc.
Qed.

Lemma endpoint_events session_id envs w :
  ∃ evs, trace (websocket_endpoint session_id envs w).2 = trace w ++ evs
         ∧ (∀ p, p `prefix_of` evs → orderly p)
         ∧ length (generated evs) ≤ length envs.
Proof.
  rewrite endpoint_run.
  destruct (guarded_loop_events session_id envs
              (World (<[session_id := [entry System system_prompt]]>
                        (chat_histories w))
                     (trace w ++ [Accepted; Printed (Connected session_id)])))
    as (evs & Htr & Ho & Hg).
  rewrite Htr. cbn [trace]. rewrite <- app_assoc.
  eexists. split; [done |]. split.
  - apply orderly_prefixes_app; [| done].
    intros p Hp. prefix_cases; unfold orderly; cbn; lia.
  - rewrite generated_app. exact Hg.
Qed.

End Rounds.

(** X8. A conversation in which nothing fails: for the messages and the
    replies of [l], the handler is left waiting for the next message, the
    history of the session is the one the rounds build from the System
    entry, the client is sent each reply followed by "[END]", in the order
    of the rounds, every exchange is logged once with the message and the
    reply, and the model is called once for each message. *)
Theorem rounds_served session_id l w :
  ∃ evs,
    Handler.websocket_endpoint session_id (Handler.ok_env <$> l) w
    = (Handler.Ok Handler.Open,
       Handler.World
         (<[session_id := rounds [entry System system_prompt] l]>
            (Handler.chat_histories w))
         (Handler.trace w
          ++ [Handler.Accepted; Handler.Printed (Handler.Connected session_id)]
          ++ evs))
    ∧ Handler.sent evs = flat_map (λ round, [round.2; "[END]"]) l
    ∧ Handler.logged evs = (λ round, (session_id, round.1, round.2)) <$> l
    ∧ length (Handler.generated evs) = length l.
Proof.
  rewrite endpoint_run.
  destruct (serve_ok_rounds session_id l
              (Handler.World
                 (<[session_id := [entry System system_prompt]]>
                    (Handler.chat_histories w))
                 (Handler.trace w
                  ++ [Handler.Accepted;
                      Handler.Printed (Handler.Connected session_id)]))
              _ (lookup_insert_eq _ _ _))
    as (evs & Hrun & Hsent & Hlog & Hgen).
  exists evs. rewrite (guarded_loop_ok _ _ _ _ Hrun).
  cbn [Handler.chat_histories Handler.trace].
  by rewrite insert_insert_eq, <- app_assoc.
Qed.

(** X9. When the call of the model raises, the round stops there: the
    error is printed, the socket is closed, the session is removed from
    [chat_histories] and the handler returns.  Nothing is sent to the
    client, not even a text about the error, and nothing is logged. *)
Theorem generation_error_closes_session
    session_id env envs w h user_input message :
  Handler.chat_histories w !! session_id = Some h →
  Handler.on_receive env = inr user_input →
  Handler.on_generate env (render (append_user h user_input)) = inl message →
  Handler.guarded_loop session_id (env :: envs) w
  = (Handler.Ok Handler.Closed,
     Handler.World
       (delete session_id (Handler.chat_histories w))
       (Handler.trace w ++
          [Handler.Printed (Handler.UserLine session_id user_input);
           Handler.Generated (render (append_user h user_input));
           Handler.Printed (Handler.ErrorLine session_id (Handler.Error message));
           Handler.SocketClosed;
           Handler.GcCollected]))
  ∧ Handler.sent (Handler.trace
        (Handler.guarded_loop session_id (env :: envs) w).2)
    = Handler.sent (Handler.trace w)
  ∧ Handler.logged (Handler.trace
        (Handler.guarded_loop session_id (env :: envs) w).2)
    = Handler.logged (Handler.trace w).
Proof.
  intros Hl Hrecv Hgen.
  match goal with |- ?A ∧ _ => assert A as Hrun end.
  { erewrite guarded_loop_raised.
    2: { apply serve_cons_raised. rewrite (turn_run _ _ _ _ _ Hl Hrecv).
         cbv zeta. by rewrite Hgen. }
    rewrite on_exception_run. cbn [snd Handler.chat_histories Handler.trace].
    by rewrite delete_insert_eq, <- app_assoc. }
  split; [exact Hrun |]. rewrite Hrun. cbn [snd Handler.trace].
  rewrite sent_app, logged_app. cbn. by rewrite !app_nil_r.
Qed.

Lemma generation_error_closes_session_witness :
  Handler.guarded_loop "s"
    [Handler.TurnEnv (inr "Hi") (λ _, inl "out of memory") None None None]
    (Handler.World {[ "s" := [entry System system_prompt] ]} [])
  = (Handler.Ok Handler.Closed,
     Handler.World
       (delete "s" {[ "s" := [entry System system_prompt] ]})
       [Handler.Printed (Handler.UserLine "s" "Hi");
        Handler.Generated
          (render (append_user [entry System system_prompt] "Hi"));
        Handler.Printed
          (Handler.ErrorLine "s" (Handler.Error "out of memory"));
        Handler.SocketClosed;
        Handler.GcCollected]).
Proof.
  exact (proj1 (generation_error_closes_session "s"
           (Handler.TurnEnv (inr "Hi") (λ _, inl "out of memory")
              None None None)
           []
           (Handler.World {[ "s" := [entry System system_prompt] ]} [])
           [entry System system_prompt] "Hi" "out of memory"
           (lookup_singleton_eq _ _) eq_refl eq_refl)).
Defined.

(** X10. When the client disconnects while the handler waits for a
    message, the session is removed from [chat_histories] and the handler
    returns: the disconnection is printed, the socket is not closed by the
    handler, and the rounds that might have followed do not take place. *)
Theorem disconnect_removes_session session_id env envs w :
  Handler.on_receive env = inl Handler.WebSocketDisconnect →
  Handler.guarded_loop session_id (env :: envs) w
  = (Handler.Ok Handler.Closed,
     Handler.World
       (delete session_id (Handler.chat_histories w))
       (Handler.trace w ++
          [Handler.Printed (Handler.Disconnected session_id);
           Handler.GcCollected])).
Proof.
  intros Hrecv.
  erewrite guarded_loop_raised.
  2: { apply serve_cons_raised. by apply turn_receive_raised. }
  by rewrite on_exception_run.
Qed.

Lemma disconnect_removes_session_witness :
  Handler.guarded_loop "s"
    [Handler.TurnEnv (inl Handler.WebSocketDisconnect) (λ _, inr "Hello.")
       None None None;
     Handler.ok_env ("Hi", "Hello.")]
    (Handler.World {[ "s" := [entry System system_prompt] ]} [])
  = (Handler.Ok Handler.Closed,
     Handler.World
       (delete "s" {[ "s" := [entry System system_prompt] ]})
       [Handler.Printed (Handler.Disconnected "s"); Handler.GcCollected]).
Proof.
  exact (disconnect_removes_session "s"
           (Handler.TurnEnv (inl Handler.WebSocketDisconnect)
              (λ _, inr "Hello.") None None None)
           [Handler.ok_env ("Hi", "Hello.")]
           (Handler.World {[ "s" := [entry System system_prompt] ]} [])
           eq_refl).
Defined.

(** X11. When sending the reply fails, the exchange has already been
    written to the log: the log holds a reply that the client has not
    received.  The session is removed as for any other exception; after a
    disconnection the socket is not closed by the handler, after another
    error it is. *)
Theorem send_failure_after_log
    session_id env envs w h user_input response e :
  Handler.chat_histories w !! session_id = Some h →
  Handler.on_receive env = inr user_input →
  Handler.on_generate env (render (append_user h user_input)) = inr response →
  Handler.on_log env = None →
  Handler.on_send_reply env = Some e →
  Handler.guarded_loop session_id (env :: envs) w
  = (Handler.Ok Handler.Closed,
     Handler.World
       (delete session_id (Handler.chat_histories w))
       (Handler.trace w ++
          [Handler.Printed (Handler.UserLine session_id user_input);
           Handler.Generated (render (append_user h user_input));
           Handler.LogChat session_id user_input response;
           Handler.Printed (Handler.AssistantLine session_id response)]
          ++ match e with
             | Handler.WebSocketDisconnect =>
                 [Handler.Printed (Handler.Disconnected session_id);
                  Handler.GcCollected]
             | Handler.Error _ =>
                 [Handler.Printed (Handler.ErrorLine session_id e);
                  Handler.SocketClosed;
                  Handler.GcCollected]
             end)).
Proof.
  intros Hl Hrecv Hgen Hlog Hsend.
  erewrite guarded_loop_raised.
  2: { apply serve_cons_raised. rewrite (turn_run _ _ _ _ _ Hl Hrecv).
       cbv zeta. by rewrite Hgen, Hlog, Hsend. }
  rewrite on_exception_run. cbn [snd Handler.chat_histories Handler.trace].
  by rewrite delete_insert_eq, <- !app_assoc.
Qed.

Lemma send_failure_after_log_witness :
  Handler.logged (Handler.trace (Handler.guarded_loop "s"
    [Handler.TurnEnv (inr "Hi") (λ _, inr "Hello.") None
       (Some Handler.WebSocketDisconnect) None]
    (Handler.World {[ "s" := [entry System system_prompt] ]} [])).2)
  = [("s", "Hi", "Hello.")].
Proof.
  rewrite (send_failure_after_log "s"
             (Handler.TurnEnv (inr "Hi") (λ _, inr "Hello.") None
                (Some Handler.WebSocketDisconnect) None)
             []
             (Handler.World {[ "s" := [entry System system_prompt] ]} [])
             [entry System system_prompt] "Hi" "Hello."
             Handler.WebSocketDisconnect
             (lookup_singleton_eq _ _) eq_refl eq_refl eq_refl eq_refl).
  reflexivity.
Defined.

(** X12. A handler reads and writes the history of its own session only.
    Whatever happens in its rounds, the histories of the other sessions
    are after its run what they were before.  And nothing it does depends
    on what [chat_histories] holds when it starts: from any two states of
    the store it returns in the same way, leaves the same history for its
    session, and prints, asks of the model, logs and sends the same. *)
Theorem other_sessions_untouched session_id envs :
  (∀ w other,
     other ≠ session_id →
     Handler.chat_histories (Handler.websocket_endpoint session_id envs w).2
       !! other
     = Handler.chat_histories w !! other)
  ∧ (∀ w1 w2,
       (Handler.websocket_endpoint session_id envs w1).1
       = (Handler.websocket_endpoint session_id envs w2).1
       ∧ Handler.chat_histories
           (Handler.websocket_endpoint session_id envs w1).2 !! session_id
         = Handler.chat_histories
             (Handler.websocket_endpoint session_id envs w2).2 !! session_id
       ∧ ∃ evs,
           Handler.trace (Handler.websocket_endpoint session_id envs w1).2
           = Handler.trace w1 ++ evs
           ∧ Handler.trace (Handler.websocket_endpoint session_id envs w2).2
             = Handler.trace w2 ++ evs).
Proof.
  split.
  - intros w other Hne. rewrite endpoint_run.
    destruct (local_to_guarded_loop session_id envs
                (Handler.World
                   (<[session_id := [entry System system_prompt]]>
                      (Handler.chat_histories w))
                   (Handler.trace w
                    ++ [Handler.Accepted;
                        Handler.Printed (Handler.Connected session_id)])))
      as [Hother _].
    rewrite (Hother other Hne). cbn [Handler.chat_histories].
    by rewrite lookup_insert_ne.
  - intros w1 w2. rewrite !endpoint_run.
    destruct (reads_own_guarded_loop session_id envs
                (Handler.World
                   (<[session_id := [entry System system_prompt]]>
                      (Handler.chat_histories w1))
                   (Handler.trace w1
                    ++ [Handler.Accepted;
                        Handler.Printed (Handler.Connected session_id)]))
                (Handler.World
                   (<[session_id := [entry System system_prompt]]>
                      (Handler.chat_histories w2))
                   (Handler.trace w2
                    ++ [Handler.Accepted;
                        Handler.Printed (Handler.Connected session_id)])))
      as (Hres & Hown & evs & Htr1 & Htr2).
    { cbn [Handler.chat_histories]. by rewrite !lookup_insert_eq. }
    split; [done |]. split; [done |].
    exists ([Handler.Accepted; Handler.Printed (Handler.Connected session_id)]
            ++ evs).
    rewrite Htr1, Htr2. cbn [Handler.trace]. by rewrite <- !app_assoc.
Qed.

Lemma other_sessions_untouched_witness :
  Handler.chat_histories
    (Handler.websocket_endpoint "b" [Handler.ok_env ("Hi", "Hello.")]
       (Handler.World {[ "a" := [entry System system_prompt; "User: secret"] ]}
          [])).2
    !! "a"
  = Some [entry System system_prompt; "User: secret"]
  ∧ Handler.generated (Handler.trace
      (Handler.websocket_endpoint "b" [Handler.ok_env ("Hi", "Hello.")]
         (Handler.World
            {[ "a" := [entry System system_prompt; "User: secret"] ]} [])).2)
    = Handler.generated (Handler.trace
        (Handler.websocket_endpoint "b" [Handler.ok_env ("Hi", "Hello.")]
           (Handler.World ∅ [])).2).
Proof.
  split.
  - rewrite (proj1 (other_sessions_untouched "b"
                      [Handler.ok_env ("Hi", "Hello.")])
               (Handler.World
                  {[ "a" := [entry System system_prompt; "User: secret"] ]} [])
               "a");
      [apply lookup_singleton_eq | done].
  - destruct (proj2 (other_sessions_untouched "b"
                       [Handler.ok_env ("Hi", "Hello.")])
                (Handler.World
                   {[ "a" := [entry System system_prompt; "User: secret"] ]}
                   [])
                (Handler.World ∅ []))
      as (_ & _ & evs & -> & ->).
    reflexivity.
Defined.

(** X13. The handler does not raise.  It returns only after an exception
    in a round, and then its session is no longer in [chat_histories];
    as long as no round has raised it is waiting for a message, and the
    history of its session is the one that as many rounds as it has
    served build from the System entry: it starts with that entry, goes
    on with User and Assistant entries, and has at most 8 entries. *)
Theorem endpoint_outcome session_id envs w :
  ∃ st w',
    Handler.websocket_endpoint session_id envs w = (Handler.Ok st, w')
    ∧ match st with
      | Handler.Closed => Handler.chat_histories w' !! session_id = None
      | Handler.Open =>
          ∃ l, length l = length envs
               ∧ Handler.chat_histories w' !! session_id
                 = Some (rounds [entry System system_prompt] l)
               ∧ well_formed (rounds [entry System system_prompt] l)
               ∧ length (rounds [entry System system_prompt] l) ≤ 8
      end.
Proof.
  rewrite endpoint_run. unfold Handler.guarded_loop.
  destruct (Handler.serve session_id envs _) as [[[] | e] w1] eqn:Hrun.
  - exists Handler.Open, w1. split; [done |].
    destruct (serve_ok_inv _ _ _ _ _ (lookup_insert_eq _ _ _) Hrun)
      as (l & Hlen & Hl).
    exists l. split; [done |]. split; [done |]. split.
    + apply rounds_well_formed. exists []. by split.
    + apply rounds_length. cbn. lia.
  - rewrite on_exception_run. eexists Handler.Closed, _. split; [done |].
    cbn [Handler.chat_histories]. apply lookup_delete_eq.
Qed.

(** X14. Whatever fails in the rounds, at every moment of a run of the
    handler: no more texts have been sent to the client than two for each
    exchange logged so far, and no more exchanges have been logged than
    the model has been called; over the whole run the model is called at
    most once for each message received. *)
Theorem replies_logged_before_sent session_id envs w :
  ∃ evs,
    Handler.trace (Handler.websocket_endpoint session_id envs w).2
    = Handler.trace w ++ evs
    ∧ length (Handler.generated evs) ≤ length envs
    ∧ ∀ p, p `prefix_of` evs →
        length (Handler.sent p) ≤ 2 * length (Handler.logged p)
        ∧ length (Handler.logged p) ≤ length (Handler.generated p).
Proof.
  destruct (endpoint_events session_id envs w) as (evs & Htr & Ho & Hg).
  exists evs. split; [done |]. split; [done |]. exact Ho.
Qed.

(** ** The window of the history *)

Section Window.

Implicit Types (h rest m : list string).

(** Lines 154-155 on a history that is not empty: the first entry and the
    last six of the others. *)
Lemma trim_window e0 rest :
  trim (e0 :: rest) = e0 :: drop (length rest - 6) rest.
Proof.
  destruct (decide (7 ≤ length rest)) as [Hlong | Hshort].
  - by apply trim_long.
  - rewrite trim_short by (cbn; lia).
    by replace (length rest - 6) with 0 by lia.
Qed.

Lemma window_app rest m :
  drop (length (drop (length rest - 6) rest ++ m) - 6)
       (drop (length rest - 6) rest ++ m)
  = drop (length (rest ++ m) - 6) (rest ++ m).
Proof.
  destruct (decide (length rest ≤ 6)) as [Hshort | Hlong].
  - by replace (length rest - 6) with 0 by lia.
  - rewrite !length_app, length_drop.
    replace (length rest - (length rest - 6) + length m - 6)
      with (length m) by lia.
    replace (length rest + length m - 6)
      with ((length rest - 6) + length m) by lia.
    rewrite <- drop_drop. f_equal. by rewrite drop_app_le by lia.
Qed.

Lemma window_last rest m :
  6 ≤ length m →
  drop (length (rest ++ m) - 6) (rest ++ m) = drop (length m - 6) m.
Proof.
  intros Hm. rewrite length_app.
  replace (length rest + length m - 6)
    with (length rest + (length m - 6)) by lia.
  by rewrite drop_app_add.
Qed.

Lemma append_user_window e0 rest user_input :
  append_user (e0 :: rest) user_input
  = e0 :: drop (length (rest ++ [entry User user_input]) - 6)
               (rest ++ [entry User user_input]).
Proof. unfold append_user. cbn [app]. apply trim_window. Qed.

(** Three rounds and a message after any history: what is kept of it is
    its first entry. *)
Lemma three_rounds_window e0 rest u1 r1 u2 r2 u3 r3 u :
  append_user (rounds (e0 :: rest) [(u1, r1); (u2, r2); (u3, r3)]) u
  = [e0; entry Assistant r1; entry User u2; entry Assistant r2;
     entry User u3; entry Assistant r3; entry User u].
Proof.
  cbn [rounds]. unfold append_assistant.
  rewrite append_user_window. cbn [app].
  rewrite append_user_window, <- app_assoc, window_app. cbn [app].
  rewrite append_user_window, <- !app_assoc, window_app. cbn [app].
  rewrite append_user_window, <- !app_assoc, window_app. cbn [app].
  rewrite <- !app_assoc. cbn [app]. f_equal.
  by rewrite (window_last rest
                [entry User u1; entry Assistant r1; entry User u2;
                 entry Assistant r2; entry User u3; entry Assistant r3;
                 entry User u]) by (cbn; lia).
Qed.

Lemma rounds_app h l1 l2 : rounds h (l1 ++ l2) = rounds (rounds h l1) l2.
Proof.
  revert h. induction l1 as [| [u r] l1 IH]; intros h; [done |].
  cbn [rounds app]. apply IH.
Qed.

Lemma rounds_head e0 rest l : ∃ rest', rounds (e0 :: rest) l = e0 :: rest'.
Proof.
  revert rest. induction l as [| [u r] l IH]; intros rest; [by eexists |].
  cbn [rounds]. rewrite append_user_window. unfold append_assistant.
  cbn [app]. apply IH.
Qed.

Lemma join_snoc sep (l : list string) x :
  l ≠ [] → Str.join sep (l ++ [x]) = Str.join sep l +:+ sep +:+ x.
Proof.
  intros Hne. induction l as [| y l IH]; [done |].
  destruct l as [| z l]; [done |].
  change (Str.join sep ((y :: z :: l) ++ [x]))
    with (y +:+ sep +:+ Str.join sep ((z :: l) ++ [x])).
  rewrite IH by done.
  change (Str.join sep (y :: z :: l))
    with (y +:+ sep +:+ Str.join sep (z :: l)).
  by rewrite !str_app_assoc.
Qed.

Lemma trim_snoc h x :
  h ≠ [] → ∃ before, before ≠ [] ∧ trim (h ++ [x]) = before ++ [x].
Proof.
  intros Hne. destruct h as [| e0 rest]; [done |].
  cbn [app]. rewrite trim_window.
  destruct (decide (length rest < 6)) as [Hshort | Hlong].
  - exists (e0 :: rest). split; [done |].
    rewrite length_app. cbn [length].
    by replace (length rest + 1 - 6) with 0 by lia.
  - exists (e0 :: drop (length rest - 5) rest). split; [done |].
    rewrite length_app. cbn [length app].
    replace (length rest + 1 - 6) with (length rest - 5) by lia.
    by rewrite drop_app_le by lia.
Qed.

End Window.

(** X15. Trimming never drops the message just received: after line 155
    it is the last entry of the history, so the context given to the model
    ends with "User: <message>", a newline and "Assistant:". *)
Theorem context_ends_with_message h user_input :
  last (append_user h user_input) = Some (entry User user_input)
  ∧ ∃ before,
      render (append_user h user_input)
      = before +:+ entry User user_input +:+ nl +:+ "Assistant:".
Proof.
  destruct h as [| e0 rest].
  - split; [done |]. by exists "".
  - destruct (trim_snoc (e0 :: rest) (entry User user_input))
      as (before & Hne & Htrim); [done |].
    unfold append_user. rewrite Htrim. split; [apply last_snoc |].
    exists (Str.join nl before +:+ nl). unfold render.
    by rewrite join_snoc, !str_app_assoc.
Qed.

(** X16. From the fourth message of a conversation on, the history at the
    call of the model has seven entries: the System entry, the reply of
    the round three rounds back, without the message it answered, the two
    rounds before the message in full, and the message.  What came
    earlier is no longer there. *)
Theorem context_after_three_rounds l round1 round2 round3 user_input :
  append_user
    (rounds [entry System system_prompt] (l ++ [round1; round2; round3]))
    user_input
  = [entry System system_prompt;
     entry Assistant round1.2;
     entry User round2.1; entry Assistant round2.2;
     entry User round3.1; entry Assistant round3.2;
     entry User user_input].
Proof.
  rewrite rounds_app.
  destruct (rounds_head (entry System system_prompt) [] l) as (rest & ->).
  destruct round1 as [u1 r1], round2 as [u2 r2], round3 as [u3 r3].
  apply three_rounds_window.
Qed.

(** ** Sentences: lines 125-126 *)

Section Sentences.

Implicit Types (r : Re.regex) (p q : option ascii) (s t a acc : string).

Lemma gap_no_match p s :
  is_end_opt p && starts_with_space s = false →
  Re.match_at sentence_gap_re p s = None.
Proof.
  intros Hno. unfold Re.match_at, sentence_gap_re. cbn [Re.rmatch].
  destruct p as [c |]; [| done]. cbn [Re.accepts].
  cbn [is_end_opt] in Hno.
  destruct (existsb (Ascii.eqb c) sentence_end); [| done].
  destruct s as [| b s]; [done |]. cbn in Hno |- *.
  by rewrite Hno.
Qed.

Lemma star_spaces p n acc :
  starts_with_space acc = false →
  Re.star_greedy (Re.OneOf [" "%char]) p (spaces n +:+ acc) (λ _ t, Some t)
  = Some acc.
Proof.
  intros Hacc. revert p. induction n as [| n IH]; intros p.
  - rewrite str_app_nil_l. destruct acc as [| c acc]; [done |].
    cbn in Hacc |- *. by rewrite Hacc.
  - cbn [spaces]. rewrite str_app_cons. cbn [Re.star_greedy Re.accepts].
    cbn. by rewrite IH.
Qed.

Lemma gap_match c n acc :
  is_end_opt (Some c) = true → starts_with_space acc = false →
  Re.match_at sentence_gap_re (Some c) (spaces (S n) +:+ acc) = Some acc.
Proof.
  intros Hc Hacc. unfold Re.match_at, sentence_gap_re. cbn [Re.rmatch].
  cbn [Re.accepts]. cbn [is_end_opt] in Hc. rewrite Hc.
  cbn [spaces]. rewrite str_app_cons. cbn [Re.accepts existsb].
  cbn. by apply star_spaces.
Qed.

Lemma spaces_length n : Str.length (spaces n) = n.
Proof. induction n as [| n IH]; [done |]. cbn. by rewrite IH. Qed.

Lemma spaces_last n p :
  Str.last_char (spaces (S n)) p = Some " "%char.
Proof.
  revert p. induction n as [| n IH]; intros p; [done |].
  cbn [spaces Str.last_char] in *. apply (IH (Some " "%char)).
Qed.

Lemma re_split_go_skip r a b p :
  Re.split_go r (Str.length a) p (a +:+ b)
  = Re.split_go r 0 (Str.last_char a p) b.
Proof.
  revert p. induction a as [| c a IH]; intros p; [done |].
  rewrite str_app_cons. cbn [Str.length Re.split_go Str.last_char]. apply IH.
Qed.

Lemma re_split_go_prev_any r p q s :
  (∀ t, Re.match_at r p t = Re.match_at r q t) →
  Re.split_go r 0 p s = Re.split_go r 0 q s.
Proof.
  intros Hpq. destruct s as [| c s]; [done |]. cbn [Re.split_go].
  unfold Re.match_len. by rewrite Hpq.
Qed.

(** Where no match starts, the text goes to the piece that follows. *)
Lemma re_split_go_copy_app r p pre s x xs :
  no_match_inside r p pre s = true →
  Re.split_go r 0 (Str.last_char pre p) s = x :: xs →
  Re.split_go r 0 p (pre +:+ s) = (pre +:+ x) :: xs.
Proof.
  revert p. induction pre as [| c pre IH]; intros p Hno Hs.
  - by rewrite !str_app_nil_l.
  - cbn [no_match_inside] in Hno.
    destruct (Re.match_at r p (String c pre +:+ s)) eqn:Hm; [done |].
    rewrite !str_app_cons in *. cbn [Re.split_go].
    rewrite (match_len_None _ _ _ Hm).
    cbn [Str.last_char] in Hs. by rewrite (IH _ Hno Hs).
Qed.

Lemma gap_no_match_inside p a s :
  is_end_opt p && starts_with_space a = false →
  end_then_space a = false →
  no_match_inside sentence_gap_re p a s = true.
Proof.
  revert p. induction a as [| c a IH]; intros p Hp Ha; [done |].
  cbn [no_match_inside]. rewrite str_app_cons.
  rewrite gap_no_match by exact Hp.
  cbn [end_then_space] in Ha. apply orb_false_elim in Ha as [Hc Ha].
  by apply IH.
Qed.

Lemma sentence_parts a :
  is_sentence a = true →
  is_end_opt (Str.last_char a None) = true
  ∧ starts_with_space a = false ∧ end_then_space a = false.
Proof.
  unfold is_sentence. intros [[Hend Hsp]%andb_prop Hno]%andb_prop.
  apply negb_true_iff in Hsp, Hno. split; [| done].
  unfold Str.endswith_any in Hend.
  by destruct (Str.last_char a None).
Qed.

(** A sentence and the spaces after it are cut off as one piece. *)
Lemma split_sentence p a n acc :
  is_sentence a = true → starts_with_space acc = false →
  Re.split_go sentence_gap_re 0 p (a +:+ spaces (S n) +:+ acc)
  = a :: Re.split_go sentence_gap_re 0 None acc.
Proof.
  intros (Hend & Hsp & Hno)%sentence_parts Hacc.
  assert (a ≠ "") as Hne by (by destruct a).
  rewrite (last_char_nonempty a None p Hne) in Hend.
  destruct (Str.last_char a p) as [c |] eqn:Hlast; [| done].
  rewrite <- (str_app_nil_r a) at 2.
  apply re_split_go_copy_app.
  { apply gap_no_match_inside; [by rewrite Hsp, andb_false_r | done]. }
  rewrite Hlast.
  assert (Re.match_len sentence_gap_re (Some c) (spaces (S n) +:+ acc)
          = Some (S n)) as Hlen.
  { unfold Re.match_len. rewrite (gap_match c n acc Hend Hacc).
    rewrite str_length_app, spaces_length. f_equal. lia. }
  cbn [spaces] in Hlen |- *. rewrite str_app_cons in Hlen |- *.
  cbn [Re.split_go]. rewrite Hlen. f_equal.
  rewrite <- (spaces_length n) at 1. rewrite re_split_go_skip.
  apply re_split_go_prev_any. intros t.
  rewrite (gap_no_match None) by done.
  apply gap_no_match.
  destruct n as [| n]; [done |]. by rewrite spaces_last.
Qed.

Lemma spaced_first l t :
  Forall (λ x, is_sentence x.1 = true) l →
  starts_with_space t = false →
  starts_with_space (spaced l t) = false.
Proof.
  intros Hl Ht. destruct Hl as [| [a n] l Ha _]; [done |].
  cbn [spaced foldr fst snd] in *.
  apply sentence_parts in Ha as (Hend & Hsp & _).
  destruct a as [| c a]; [done |]. by rewrite str_app_cons.
Qed.

Lemma split_spaced l t :
  Forall (λ x, is_sentence x.1 = true) l →
  starts_with_space t = false → end_then_space t = false →
  Re.split sentence_gap_re (spaced l t) = (fst <$> l) ++ [t].
Proof.
  intros Hl Ht Hno. unfold Re.split.
  induction Hl as [| [a n] l Ha Hl IH].
  - cbn [spaced foldr fmap list_fmap app]. apply split_go_copy.
    apply gap_no_match_inside; done.
  - cbn [spaced foldr fst snd]. fold (spaced l t).
    rewrite (split_sentence _ _ _ _ Ha (spaced_first l t Hl Ht)).
    by rewrite IH.
Qed.

End Sentences.

(** X17. A text made of sentences, each followed by one space or more,
    and of a rest in which no sentence ends before a space, is split by
    line 125 into these sentences and the rest.  So line 126 keeps the
    first three pieces, with one space between them: with three sentences
    or more, everything after the third is dropped. *)
Theorem first_sentences_spaced l t :
  Forall (λ x, is_sentence x.1 = true) l →
  starts_with_space t = false →
  end_then_space t = false →
  Re.split sentence_gap_re (spaced l t) = (fst <$> l) ++ [t]
  ∧ first_sentences (spaced l t)
    = Str.strip (Str.join " " (take 3 ((fst <$> l) ++ [t])))
  ∧ (3 ≤ length l →
     first_sentences (spaced l t)
     = Str.strip (Str.join " " (take 3 (fst <$> l)))).
Proof.
  intros Hl Ht Hno. pose proof (split_spaced l t Hl Ht Hno) as Hsplit.
  split; [done |]. unfold first_sentences. cbv zeta. rewrite Hsplit.
  split; [done |]. intros Hlen.
  by rewrite take_app_le by (by rewrite length_fmap).
Qed.

Lemma first_sentences_spaced_witness :
  first_sentences "One.  Two! Three? Four. Five" = "One. Two! Three?".
Proof.
  destruct (first_sentences_spaced
              [("One.", 1); ("Two!", 0); ("Three?", 0); ("Four.", 0)] "Five")
    as (_ & _ & Hthree).
  - repeat constructor.
  - reflexivity.
  - reflexivity.
  - exact (Hthree (le_S _ _ (le_n 3))).
Defined.

(** ** A reply that needs no clean-up *)

Section CleanReply.

Implicit Types (s t : string) (l : list string).

Lemma has_char_app c s t :
  has_char c (s +:+ t) = has_char c s || has_char c t.
Proof.
  induction s as [| a s IH]; [by rewrite str_app_nil_l |].
  rewrite str_app_cons. cbn. by rewrite IH, orb_assoc.
Qed.

Lemma no_colon_no_assistant s :
  has_char ":" s = false → Str.split "Assistant:" s = [s].
Proof.
  intros Hno. induction s as [| c s IH]; [done |].
  assert (String.prefix "Assistant:" (String c s) = false) as Hp.
  { destruct (String.prefix "Assistant:" (String c s)) eqn:Hp; [| done].
    apply prefix_inv in Hp as (r & Hr). rewrite Hr, has_char_app in Hno.
    by apply orb_false_elim in Hno as [Hno _]. }
  rewrite (split_no_prefix _ _ _ Hp).
  cbn in Hno. apply orb_false_elim in Hno as [_ Hno].
  by rewrite (IH Hno).
Qed.

Lemma no_colon_then_word s : has_char ":" s = false → colon_then_word s = false.
Proof.
  induction s as [| c s IH]; [done |]. cbn.
  intros [-> Hs]%orb_false_elim. by rewrite (IH Hs).
Qed.

Lemma replace_one_line s :
  one_line s = true → Str.replace_char Char.newline " " s = s.
Proof.
  induction s as [| c s IH]; [done |]. cbn.
  intros [Hc Hs]%andb_prop. apply negb_true_iff in Hc.
  by rewrite Hc, (IH Hs).
Qed.

Lemma join_spaced l t :
  Str.join " " (l ++ [t]) = spaced ((λ a, (a, 0)) <$> l) t.
Proof.
  induction l as [| a l IH]; [done |].
  rewrite fmap_cons.
  change (spaced ((a, 0) :: ((λ a, (a, 0)) <$> l)) t)
    with (a +:+ " " +:+ spaced ((λ a, (a, 0)) <$> l) t).
  rewrite <- IH. cbn [app].
  by destruct (l ++ [t]) eqn:Heq; [destruct l |].
Qed.

Lemma first_sentences_joined l t :
  length l ≤ 2 → Forall (λ a, is_sentence a = true) (l ++ [t]) →
  first_sentences (Str.join " " (l ++ [t]))
  = Str.strip (Str.join " " (l ++ [t])).
Proof.
  intros Hlen [Hl Ht]%Forall_app.
  apply Forall_singleton, sentence_parts in Ht as (_ & Hsp & Hno).
  unfold first_sentences. cbv zeta. rewrite (join_spaced l t) at 1.
  rewrite split_spaced; [| | done..].
  2: { apply Forall_fmap. by eapply Forall_impl. }
  assert (fst <$> ((λ a, (a, 0)) <$> l) = l) as ->.
  { clear. induction l as [| a l IH]; [done |]. cbn. by f_equal. }
  by rewrite take_ge by (rewrite length_app; cbn; lia).
Qed.

End CleanReply.

(** X18. A reply that is already as the clean-up wants it comes out as it
    went in: one to three sentences with one space between them, on one
    line, with no whitespace at the ends, no colon, no "<", and no place
    where the pattern of line 118 matches. *)
Theorem sanitize_clean_reply l t :
  length l ≤ 2 →
  Forall (λ a, is_sentence a = true) (l ++ [t]) →
  has_char ":" (Str.join " " (l ++ [t])) = false →
  has_char "<" (Str.join " " (l ++ [t])) = false →
  no_match_inside thinking_re None (Str.join " " (l ++ [t])) "" = true →
  one_line (Str.join " " (l ++ [t])) = true →
  Str.strip (Str.join " " (l ++ [t])) = Str.join " " (l ++ [t]) →
  sanitize (Str.join " " (l ++ [t])) = Str.join " " (l ++ [t]).
Proof.
  intros Hlen Hall Hcolon Htag Hthink Hline Hstrip.
  pose proof (first_sentences_joined l t Hlen Hall) as Hfirst.
  assert (Str.endswith_any sentence_end (Str.join " " (l ++ [t])) = true)
    as Hend.
  { apply Forall_app in Hall as [_ Ht].
    rewrite Forall_singleton in Ht. unfold is_sentence in Ht.
    apply andb_prop in Ht as [[Ht _]%andb_prop _].
    destruct l as [| a l]; [done |].
    rewrite join_snoc by done. unfold Str.endswith_any in *.
    rewrite !last_char_app.
    rewrite (last_char_nonempty t _ None); [done |]. by destruct t. }
  revert Hfirst Hend Hcolon Htag Hthink Hline Hstrip.
  generalize (Str.join " " (l ++ [t])). intros s Hfirst Hend Hcolon Htag
    Hthink Hline Hstrip.
  unfold sanitize, steps_1_6.
  assert (extract_reply s = s) as ->.
  { unfold extract_reply. by rewrite no_colon_no_assistant. }
  assert (remove_tags s = s) as ->.
  { unfold remove_tags, Re.sub. rewrite <- (str_app_nil_r s) at 1.
    rewrite (sub_go_copy _ _ _ _ _ (no_bracket_no_tag None s "" Htag)).
    cbn. apply str_app_nil_r. }
  assert (cut_continuation s = s) as ->.
  { unfold cut_continuation, Re.split.
    rewrite (split_go_copy _ _ _
               (no_colon_no_turn_marker None s (no_colon_then_word s Hcolon))).
    exact Hstrip. }
  assert (remove_thinking s = s) as ->.
  { unfold remove_thinking, sub_thinking, Re.sub.
    rewrite <- (str_app_nil_r s) at 1.
    rewrite (sub_go_copy _ _ _ _ _ Hthink). cbn [Re.sub_go].
    destruct (Re.match_len thinking_re _ "") as [[| n] |];
      by rewrite ?str_app_nil_l, str_app_nil_r. }
  rewrite Hfirst, Hstrip. unfold close_sentence. rewrite Hend.
  unfold final_cleanup. by rewrite replace_one_line.
Qed.

Lemma sanitize_clean_reply_witness :
  sanitize "Paris is the capital of France. It lies on the Seine."
  = "Paris is the capital of France. It lies on the Seine.".
Proof.
  apply (sanitize_clean_reply ["Paris is the capital of France."]
           "It lies on the Seine.").
  - cbn. lia.
  - repeat constructor.
  - reflexivity.
  - reflexivity.
  - vm_compute. reflexivity.
  - reflexivity.
  - reflexivity.
Defined.

(** ** The lock after the calls *)

(** X19. With one message from each of the sessions, in every state that
    the handlers can reach: [model_lock] is taken exactly when a handler
    is inside the block of lines 159-160.  So the lock is given back after
    every call, also after one that has raised, and it is free when all
    handlers have left the block. *)
Theorem lock_held_inside_block contexts n st :
  nsteps ModelLock.step n (ModelLock.init contexts) st →
  (ModelLock.locked st = true
   ↔ ∃ i p, ModelLock.handlers st !! i = Some p
            ∧ ModelLock.in_block p = true)
  ∧ (ModelLock.final st → ModelLock.locked st = false).
Proof.
  intros Hn. destruct (nsteps_invariant _ _ _ Hn) as [Hinv _].
  destruct Hinv as (_ & Hfree & Hheld & _).
  assert (ModelLock.locked st = true
          ↔ ∃ i p, ModelLock.handlers st !! i = Some p
                   ∧ ModelLock.in_block p = true) as Hiff.
  { split; [exact Hheld |]. intros (i & p & Hi & Hp).
    destruct (ModelLock.locked st) eqn:Hlock; [done |].
    by rewrite (Hfree eq_refl i p Hi) in Hp. }
  split; [exact Hiff |]. intros Hfinal.
  destruct (ModelLock.locked st) eqn:Hlock; [| done].
  destruct (proj1 Hiff eq_refl) as (i & p & Hi & Hp).
  unfold ModelLock.final in Hfinal. rewrite Forall_lookup in Hfinal.
  by rewrite (Hfinal i p Hi) in Hp.
Qed.

Lemma lock_held_inside_block_witness :
  ModelLock.locked
    (ModelLock.State false [ModelLock.Past]
       [ModelLock.Start 0 "a"; ModelLock.End 0]) = false.
Proof.
  apply (lock_held_inside_block ["a"] 4); [| by repeat constructor].
  eapply nsteps_l; [by apply (ModelLock.acquire _ 0 "a") |]. cbn.
  eapply nsteps_l; [by apply (ModelLock.start _ 0 "a") |]. cbn.
  eapply nsteps_l;
    [by apply (ModelLock.finish _ 0 "a" (inl "out of memory")) |]. cbn.
  eapply nsteps_l; [by apply (ModelLock.release _ 0 (inl "out of memory")) |].
  cbn. apply nsteps_O.
Defined.

(** ** Markers at the start of a reply and in the middle of it *)

Section Markers.

Implicit Types (s t pre post mk : string) (p : option ascii).

Lemma has_char_lstrip c s :
  has_char c s = false → has_char c (Str.lstrip s) = false.
Proof.
  induction s as [| a s IH]; [done |]. cbn.
  intros [Ha Hs]%orb_false_elim.
  destruct (Char.is_space a); [by apply IH |]. cbn. by rewrite Ha, Hs.
Qed.

Lemma has_char_rstrip c s :
  has_char c s = false → has_char c (Str.rstrip s) = false.
Proof.
  induction s as [| a s IH]; [done |]. cbn.
  intros [Ha Hs]%orb_false_elim. specialize (IH Hs).
  destruct (Str.rstrip s) as [| b t].
  - destruct (Char.is_space a); [done |]. cbn. by rewrite Ha.
  - cbn in IH |- *. by rewrite Ha, IH.
Qed.

Lemma has_char_strip c s :
  has_char c s = false → has_char c (Str.strip s) = false.
Proof. intros Hs. by apply has_char_rstrip, has_char_lstrip. Qed.

(** A marker at the start of a one-line text takes the whole text. *)
Lemma sub_thinking_from_start mk post :
  is_marker mk →
  Re.is_word_opt (Str.first_char post) = false →
  one_line post = true →
  sub_thinking (mk +:+ post) = "".
Proof.
  intros Hmk Hpost Hline. unfold sub_thinking, Re.sub.
  pose proof (is_marker_nonempty _ Hmk) as Hne.
  pose proof (thinking_match_marker mk post None Hmk eq_refl Hpost) as Hm.
  rewrite one_line_rest_end in Hm by done.
  rewrite <- (str_app_nil_r (mk +:+ post)) in Hm |- *.
  rewrite (sub_go_match thinking_re "" _ (mk +:+ post) "");
    [| by destruct mk | exact Hm].
  rewrite str_app_nil_l. cbn [Re.sub_go]. unfold Re.match_len.
  by rewrite thinking_no_match_at_end.
Qed.

Lemma turn_marker_match_at p marker post :
  marker = "User:" ∨ marker = "Assistant:" →
  Re.is_word_opt p = false →
  Re.is_word_opt (Str.first_char post) = true →
  Re.match_at turn_marker_re p (marker +:+ post) = Some post.
Proof.
  intros Hmarker Hp Hpost. unfold Re.match_at, turn_marker_re.
  destruct Hmarker as [-> | ->]; rewrite !str_app_cons, str_app_nil_l;
    cbn [Re.rmatch]; unfold Re.at_word_boundary at 1; rewrite Hp;
    cbn [Str.first_char Re.is_word_opt]; cbn [Re.lit_match]; cbn;
    unfold Re.at_word_boundary; cbn; by rewrite Hpost.
Qed.

End Markers.

(** X20. A reply that begins with one of the discourse markers is lost:
    when the text after the marker is on the same line and does not go on
    with a word character, the pattern of line 118 takes all of it, and
    the client is sent the one-character reply ".". *)
Theorem reply_starting_with_marker_lost s mk post :
  is_marker mk →
  Str.strip s = mk +:+ post →
  Re.is_word_opt (Str.first_char post) = false →
  one_line post = true →
  has_char ":" s = false →
  has_char "<" s = false →
  sanitize s = ".".
Proof.
  intros Hmk Hs Hpost Hline Hcolon Htag.
  unfold sanitize, steps_1_6.
  assert (extract_reply s = mk +:+ post) as ->.
  { unfold extract_reply. by rewrite no_colon_no_assistant. }
  pose proof (has_char_strip _ _ Hcolon) as Hcolon'.
  pose proof (has_char_strip _ _ Htag) as Htag'.
  pose proof (strip_idem s) as Hidem.
  rewrite Hs in Hcolon', Htag', Hidem.
  assert (remove_tags (mk +:+ post) = mk +:+ post) as ->.
  { unfold remove_tags, Re.sub. rewrite <- (str_app_nil_r (mk +:+ post)) at 1.
    rewrite (sub_go_copy _ _ _ _ _ (no_bracket_no_tag None _ "" Htag')).
    cbn. apply str_app_nil_r. }
  assert (cut_continuation (mk +:+ post) = mk +:+ post) as ->.
  { unfold cut_continuation, Re.split.
    by rewrite (split_go_copy _ _ _
                  (no_colon_no_turn_marker None _
                     (no_colon_then_word _ Hcolon'))). }
  unfold remove_thinking.
  by rewrite (sub_thinking_from_start mk post Hmk Hpost Hline).
Qed.

Lemma reply_starting_with_marker_lost_witness :
  sanitize " So the answer is 4." = ".".
Proof.
  assert (is_marker "So") as Hmk.
  { exists "So". split; [repeat constructor | reflexivity]. }
  apply (reply_starting_with_marker_lost " So the answer is 4." "So"
           " the answer is 4." Hmk eq_refl eq_refl eq_refl eq_refl eq_refl).
Defined.

(** X21. Where "User:" or "Assistant:" stands after a non-word character
    and is followed at once by a word character, and the pattern of line
    114 matches nowhere before, the reply is cut: what is kept is the text
    before, stripped. *)
Theorem continuation_cut_at_marker pre marker post :
  marker = "User:" ∨ marker = "Assistant:" →
  Re.is_word_opt (Str.last_char pre None) = false →
  Re.is_word_opt (Str.first_char post) = true →
  no_match_inside turn_marker_re None pre (marker +:+ post) = true →
  cut_continuation (pre +:+ marker +:+ post) = Str.strip pre.
Proof.
  intros Hmarker Hpre Hpost Hno. unfold cut_continuation, Re.split.
  pose proof (turn_marker_match_at _ marker post Hmarker Hpre Hpost) as Hm.
  assert (∃ xs, Re.split_go turn_marker_re 0 (Str.last_char pre None)
                  (marker +:+ post) = "" :: xs) as (xs & Hsplit).
  { assert (∃ c n t, marker +:+ post = String c t
                     ∧ Str.length (marker +:+ post) - Str.length post = S n)
      as (c & n & t & Heq & Hlen).
    { destruct Hmarker as [-> | ->];
        [exists "U"%char, 4, ("ser:" +:+ post)
        | exists "A"%char, 9, ("ssistant:" +:+ post)];
        (split; [done |]); rewrite str_length_app; cbn [Str.length]; lia. }
    unfold Re.match_len in *. rewrite Heq in Hm, Hlen |- *.
    cbn [Re.split_go]. unfold Re.match_len. rewrite Hm, Hlen.
    by eexists. }
  rewrite (re_split_go_copy_app _ _ _ _ _ _ Hno Hsplit). cbn [hd].
  by rewrite str_app_nil_r.
Qed.

Lemma continuation_cut_at_marker_witness :
  cut_continuation ("Four." +:+ nl +:+ "User:" +:+ "thanks") = "Four.".
Proof.
  rewrite <- (str_app_assoc "Four." nl).
  apply (continuation_cut_at_marker ("Four." +:+ nl) "User:" "thanks"
           (or_introl eq_refl) eq_refl eq_refl eq_refl).
Defined.

(** ** Where the pattern of the markers matches *)

Section MarkerMatches.

Implicit Types (s t l mk : string) (p : option ascii) (k : Re.cont).

Lemma lit_match_icase_inv l p s k t :
  Re.lit_match true l p s k = Some t →
  ∃ mk u, s = mk +:+ u ∧ same_icase l mk = true
          ∧ k (Str.last_char mk p) u = Some t.
Proof.
  revert p s. induction l as [| a l IH]; intros p s Hm.
  - by exists "", s.
  - destruct s as [| c s]; [done |]. cbn [Re.lit_match] in Hm.
    destruct (Char.eqb_icase a c) eqn:Hac; [| done].
    destruct (IH _ _ Hm) as (mk & u & -> & Hsame & Hk).
    exists (String c mk), u. split; [done |]. cbn. by rewrite Hac, Hsame.
Qed.

Lemma alternatives_inv ms p s k t :
  ms ≠ [] →
  Re.rmatch (alternatives ms) p s k = Some t →
  ∃ m, m ∈ ms ∧ Re.lit_match true m p s k = Some t.
Proof.
  induction ms as [| m1 ms IH]; intros Hne Hm; [done |].
  destruct ms as [| m2 ms].
  - exists m1. split; [apply elem_of_cons; by left | exact Hm].
  - rewrite alternatives_cons in Hm by done. cbn [Re.rmatch] in Hm.
    destruct (Re.lit_match true m1 p s k) as [r |] eqn:Hlit.
    + exists m1. split; [apply elem_of_cons; by left | congruence].
    + destruct (IH ltac:(done) Hm) as (m & Hin & Hmatch).
      exists m. split; [apply elem_of_cons; by right | done].
Qed.

End MarkerMatches.

(** X22. The pattern of line 118 matches whole markers only: where it
    matches, the text starts with a marker, in any case of its letters,
    the character before and the character after the marker are no word
    characters, and the match ends where the line ends.  A marker inside
    a longer word is no match. *)
Theorem thinking_matches_whole_markers p s t :
  Re.match_at thinking_re p s = Some t →
  Re.is_word_opt p = false
  ∧ ∃ mk post,
      is_marker mk ∧ s = mk +:+ post
      ∧ Re.is_word_opt (Str.first_char post) = false
      ∧ t = rest_of_lines post.
Proof.
  rewrite thinking_match_at_eq.
  destruct (Re.at_word_boundary p s) eqn:Hb; [| done].
  intros (m & Hin & Hlit)%alternatives_inv; [| done].
  apply lit_match_icase_inv in Hlit as (mk & post & -> & Hsame & Hk).
  pose proof thinking_markers_shape as Hshape.
  rewrite Forall_forall in Hshape.
  destruct (Hshape m Hin) as (_ & Hfirst & Hlast).
  assert (is_marker mk) as Hmk by (by exists m).
  pose proof (is_marker_nonempty _ Hmk) as Hne.
  unfold Re.at_word_boundary in Hb.
  rewrite first_char_app, (same_icase_first _ _ Hsame), Hfirst in Hb by done.
  rewrite to_end_of_line_eq in Hk. unfold Re.at_word_boundary in Hk.
  rewrite (last_char_nonempty mk p None Hne) in Hk.
  rewrite (same_icase_last m mk None None Hsame eq_refl), Hlast in Hk.
  split; [by destruct (Re.is_word_opt p) |].
  exists mk, post. split; [done |]. split; [done |].
  destruct (Re.is_word_opt (Str.first_char post)); [done |].
  cbn in Hk. split; [done | congruence].
Qed.

Lemma thinking_matches_whole_markers_witness :
  Re.is_word_opt (Some " "%char) = false
  ∧ ∃ mk post,
      is_marker mk ∧ "i THINK so" +:+ nl +:+ "Yes." = mk +:+ post
      ∧ Re.is_word_opt (Str.first_char post) = false
      ∧ nl +:+ "Yes." = rest_of_lines post.
Proof.
  exact (thinking_matches_whole_markers (Some " "%char)
           ("i THINK so" +:+ nl +:+ "Yes.") (nl +:+ "Yes.") eq_refl).
Defined.
